(** * notes-api: the search query composition engine

    A shallow embedding of the note search of the notes-api GraphQL service:
    the pagination policy ([calcHasMorePages]), the field-projection helpers
    ([getAllNestedKeys], [getFlattenFields]), the filter and sort composition
    and the two-phase text search of the note resolver ([searchNotes],
    [fetchNoteIdsBySearchPhrase]).

    Numbers are the integers the GraphQL layer hands over (identities,
    counts, limits, offsets) and are modelled as [Z]; dates are compared
    through their epoch value, also a [Z].  JavaScript objects whose keys are
    enumerated ([nestedFields]) are association lists in enumeration order;
    objects only read by key (the filter object, the id-to-note record) are
    [gmap]s. *)

From Stdlib Require Import ZArith Lia Ascii String Sorting.Sorted.
From stdpp Require Import base option list gmap strings pretty.

Open Scope Z_scope.

(* ================================================================= *)
(** ** Strings *)

(** The double-quote character, as the template literals of the resolver
    contain it. *)
Definition dquote : string := String (ascii_of_nat 34) EmptyString.

(** [s.split(sep)] for a one-character separator. *)
Fixpoint split (sep : ascii) (s : string) : list string :=
  match s with
  | EmptyString => [EmptyString]
  | String c rest =>
      if Ascii.eqb c sep then EmptyString :: split sep rest
      else match split sep rest with
           | [] => [String c EmptyString]
           | part :: parts => String c part :: parts
           end
  end.

(** [s.startsWith(p)] *)
Definition startsWith (s p : string) : bool := String.prefix p s.

(** [s.endsWith(p)] *)
Definition endsWith (s p : string) : bool :=
  let ls := String.length s in
  let lp := String.length p in
  (lp <=? ls)%nat && String.eqb (substring (ls - lp) lp s) p.

(** A string with no occurrence of character [c]. *)
Fixpoint lacks (c : ascii) (s : string) : bool :=
  match s with
  | EmptyString => true
  | String d rest => negb (Ascii.eqb d c) && lacks c rest
  end.

(* ================================================================= *)
(** ** Pagination policy (utils/graphql/pagination.graphql.ts) *)

Record PaginationInput := {
  limit : Z;
  offset : Z
}.

(** [Math.floor(a / b)] is [a / b] on [Z] for a positive [b]; the JavaScript
    [%] is the truncated remainder [Z.rem]. *)
Definition calcHasMorePages (totalCount limit offset : Z) : bool :=
  let totalPages := totalCount / limit in
  let totalPages :=
    if negb (Z.rem totalCount limit =? 0) then totalPages + 1 else totalPages in
  let currentPage := offset / limit + 1 in
  currentPage <? totalPages.

(** The policy in the words of the specification: the ceiling of the
    quotient, and the comparison of the current page with it. *)
Definition ceilDiv (a b : Z) : Z := - ((- a) / b).

Definition hasNextPagePolicy (totalCount limit offset : Z) : bool :=
  offset / limit + 1 <? ceilDiv totalCount limit.

(* ================================================================= *)
(** ** Requested-field trees (utils/resolvers/utils.resolvers.ts) *)

(** [nestedFields] lists the own keys of the object in enumeration order;
    the keys of an object are pairwise distinct, so enumerating the keys and
    reading each one back is enumerating the entries. *)
#[local] Unset Elimination Schemes.
Inductive GraphQLMappedFields : Type :=
  MappedFields (flatFields : list string)
               (nestedFields : list (string * GraphQLMappedFields)).
#[local] Set Elimination Schemes.

Definition flatFields (fields : GraphQLMappedFields) : list string :=
  match fields with MappedFields flat _ => flat end.

Definition nestedFields (fields : GraphQLMappedFields)
  : list (string * GraphQLMappedFields) :=
  match fields with MappedFields _ nested => nested end.

(** Structural induction through the nested entries. *)
Fixpoint GraphQLMappedFields_ind (P : GraphQLMappedFields -> Prop)
  (step : forall flat nested,
      Forall (fun entry : string * GraphQLMappedFields => P entry.2) nested ->
      P (MappedFields flat nested))
  (fields : GraphQLMappedFields) : P fields :=
  match fields with
  | MappedFields flat nested =>
      step flat nested
        ((fix all (l : list (string * GraphQLMappedFields))
            : Forall (fun entry : string * GraphQLMappedFields => P entry.2) l :=
            match l with
            | [] => List.Forall_nil _
            | entry :: rest =>
                List.Forall_cons _ entry rest
                  (GraphQLMappedFields_ind P step entry.2) (all rest)
            end) nested)
  end.

(** [key in obj] and [obj[key]] *)
Fixpoint lookupKey {A} (key : string) (obj : list (string * A)) : option A :=
  match obj with
  | [] => None
  | (k, v) :: rest => if String.eqb k key then Some v else lookupKey key rest
  end.

Definition hasKey {A} (key : string) (obj : list (string * A)) : bool :=
  match lookupKey key obj with Some _ => true | None => false end.

Fixpoint getAllNestedKeys (fields : GraphQLMappedFields) (prefix : string)
  : list string :=
  match fields with
  | MappedFields _ nested =>
      flat_map (fun entry : string * GraphQLMappedFields =>
                  let (key, nestedField) := entry in
                  getAllNestedKeys nestedField (prefix +:+ key +:+ "."))
               nested
      ++ map (fun key => prefix +:+ key) (map fst nested)
  end.

(** The callback of [fields.flatFields.map] in [getFlattenFields]. *)
Definition flattenField (prefix rootIdFieldReplacement field : string)
  : string :=
  let parts := split "." prefix in
  if (1 <? length parts)%nat then
    let currentKey := nth (length parts - 2) parts EmptyString in
    if startsWith field currentKey && endsWith field "Id"
    then prefix +:+ "id"
    else prefix +:+ field
  else
    if String.eqb field rootIdFieldReplacement then "id"
    else prefix +:+ field.

Fixpoint getFlattenFields (fields : GraphQLMappedFields)
         (prefix rootIdFieldReplacement : string) : list string :=
  match fields with
  | MappedFields flat nested =>
      map (flattenField prefix rootIdFieldReplacement) flat
      ++ flat_map (fun entry : string * GraphQLMappedFields =>
                     let (key, nestedField) := entry in
                     getFlattenFields nestedField ((prefix +:+ key) +:+ ".")
                                      EmptyString)
                  nested
  end.

(** *** The projection in the words of the specification *)

(** The dotted prefix of a path of nested keys: every key followed by a dot. *)
Definition dotted (path : list string) : string :=
  fold_right (fun key rest => key +:+ "." +:+ rest) EmptyString path.

(** A leaf below the nested object [owner] (the last key of [path]) is a
    reference to the owner's identity when its name starts with the owner's
    key and ends in Id; at the root the designated alias is the identity. *)
Definition rewriteLeaf (path : list string) (alias field : string) : string :=
  match last path with
  | None => if String.eqb field alias then "id" else field
  | Some owner =>
      if startsWith field owner && endsWith field "Id"
      then dotted path +:+ "id"
      else dotted path +:+ field
  end.

Fixpoint projectedColumns (path : list string) (alias : string)
         (fields : GraphQLMappedFields) : list string :=
  match fields with
  | MappedFields flat nested =>
      map (rewriteLeaf path alias) flat
      ++ flat_map (fun entry : string * GraphQLMappedFields =>
                     let (key, nestedField) := entry in
                     projectedColumns (path ++ [key]) alias nestedField)
                  nested
  end.

(** Keys are GraphQL names, which hold no dot. *)
Fixpoint dotFreeKeys (fields : GraphQLMappedFields) : bool :=
  match fields with
  | MappedFields _ nested =>
      forallb (fun entry : string * GraphQLMappedFields =>
                 let (key, nestedField) := entry in
                 lacks "." key && dotFreeKeys nestedField)
              nested
  end.

(** Every nested entry of a tree, at every depth, with the dotted prefix it
    sits under: (prefix, key, subtree). *)
Fixpoint entries (prefix : string) (fields : GraphQLMappedFields)
  : list (string * string * GraphQLMappedFields) :=
  match fields with
  | MappedFields _ nested =>
      flat_map (fun entry : string * GraphQLMappedFields =>
                  let (key, nestedField) := entry in
                  (prefix, key, nestedField)
                    :: entries (prefix +:+ key +:+ ".") nestedField)
               nested
  end.

(** A requested shape of a note: scalar columns, the source, and the tags
    with their tag. *)
Definition sampleFields : GraphQLMappedFields :=
  MappedFields ["noteId"; "title"]
    [("source", MappedFields ["sourceId"; "name"] []);
     ("tags", MappedFields ["noteTagId"]
                [("tag", MappedFields ["tagId"; "displayOrder"] [])])].

(** A request with two nested objects that each hold a nested object. *)
Definition twoBranches : GraphQLMappedFields :=
  MappedFields ["noteId"]
    [("tags", MappedFields [] [("tag", MappedFields ["name"] [])]);
     ("source", MappedFields [] [("publisher", MappedFields ["name"] [])])].

(** [x] occurs in [l] at a position before an occurrence of [y]. *)
Definition precedes {A} (l : list A) (x y : A) : Prop :=
  exists l1 l2 l3, l = l1 ++ x :: l2 ++ y :: l3.

(* ================================================================= *)
(** ** Entities (entities/note.entity.ts, entities/tag.entity.ts) *)

(** Only the columns the search reads are kept.  A many-to-one reference
    ([source], [language]) is the identity of the referenced row. *)
Record Tag := {
  tag_id : Z;
  tag_displayOrder : Z
}.

Record NoteTag := {
  noteTag_id : Z;
  noteTag_tag : Tag
}.

Record Note := {
  note_id : Z;
  note_internalId : string;
  note_title : string;
  note_body : string;
  note_source : Z;
  note_language : Z;
  note_tags : list NoteTag;
  note_date : Z
}.

#[global] Instance Tag_eq_dec : EqDecision Tag.
Proof. solve_decision. Defined.
#[global] Instance NoteTag_eq_dec : EqDecision NoteTag.
Proof. solve_decision. Defined.
#[global] Instance Note_eq_dec : EqDecision Note.
Proof. solve_decision. Defined.

(** The result envelope.  An entry of [items] is [None] where the
    JavaScript array holds [undefined]. *)
Record NotesPaginated := {
  items : list (option Note);
  totalCount : Z;
  hasNextPage : bool
}.

Record SearchNotesInput := {
  fromDate : Z;
  toDate : Z;
  sourceIds : option (list Z);
  languageIds : option (list Z);
  tagIds : option (list Z);
  searchPhrase : option string
}.

(** utils/graphql/enum.graphql.ts and utils/graphql/sorter.graphql.ts *)
Module Sort.
Inductive t := asc | desc.
End Sort.

Module NoteSortField.
Inductive t := date | languageId | sourceId.
End NoteSortField.

Record NoteSortInput := {
  field : NoteSortField.t;
  sort : Sort.t
}.

Record NoteMultiSortInput := {
  sorts : list NoteSortInput
}.

(* ================================================================= *)
(** ** The query objects handed to the storage layer

    The resolver does not compute results itself: it builds filter objects,
    order maps and query builders and hands them to the object-relational
    mapper.  They are data here, built by the same calls in the same
    order. *)

(** The direction of an order term: the mapper's own constants, or a value
    of the [Sort] enumeration passed through. *)
Module QueryOrder.
Inductive t := ASC | DESC | ofSort (s : Sort.t).
End QueryOrder.

(** An operator object such as [{ $gte: a, $lte: b }] is the list of its
    operators; a nested object such as [{ tag: { id: ... } }] names a
    property and carries the condition on it. *)
Inductive Operator :=
| op_gte (v : Z)
| op_lte (v : Z)
| op_in (vs : list Z).

Inductive Condition :=
| Operators (ops : list Operator)
| Property (name : string) (c : Condition).

Abbreviation QBFilterQuery := (gmap string Condition).

(** An order map is one path of property names down to a direction:
    [{ language: { id: dir } }] is the path language, id. *)
Record QBQueryOrderMap := {
  order_path : list string;
  order_dir : QueryOrder.t
}.

Inductive Selection :=
| SelectFields (fields : list string)
| SelectCount (column : string) (distinct : bool).

Module QueryBuilder.
Record t := {
  selection : Selection;
  joins : list (string * string);
  condition : QBFilterQuery;
  order : list QBQueryOrderMap;
  offset : option Z;
  limit : option Z
}.

(** [em.createQueryBuilder(Note, "note")] *)
Definition create : t :=
  {| selection := SelectFields []; joins := []; condition := ∅;
     order := []; offset := None; limit := None |}.

Definition select (fields : list string) (qb : t) : t :=
  {| selection := SelectFields fields; joins := joins qb;
     condition := condition qb; order := order qb;
     offset := offset qb; limit := limit qb |}.

Definition count (column : string) (distinct : bool) (qb : t) : t :=
  {| selection := SelectCount column distinct; joins := joins qb;
     condition := condition qb; order := order qb;
     offset := offset qb; limit := limit qb |}.

Definition leftJoinAndSelect (field alias : string) (qb : t) : t :=
  {| selection := selection qb; joins := joins qb ++ [(field, alias)];
     condition := condition qb; order := order qb;
     offset := offset qb; limit := limit qb |}.

Definition where_ (filters : QBFilterQuery) (qb : t) : t :=
  {| selection := selection qb; joins := joins qb;
     condition := filters; order := order qb;
     offset := offset qb; limit := limit qb |}.

Definition orderBy (sorters : list QBQueryOrderMap) (qb : t) : t :=
  {| selection := selection qb; joins := joins qb;
     condition := condition qb; order := sorters;
     offset := offset qb; limit := limit qb |}.

Definition withOffset (n : Z) (qb : t) : t :=
  {| selection := selection qb; joins := joins qb;
     condition := condition qb; order := order qb;
     offset := Some n; limit := limit qb |}.

Definition withLimit (n : Z) (qb : t) : t :=
  {| selection := selection qb; joins := joins qb;
     condition := condition qb; order := order qb;
     offset := offset qb; limit := Some n |}.

(** The builder is a value here, so a clone is the builder itself. *)
Definition clone (qb : t) : t := qb.
End QueryBuilder.

(** The native query obtained from a builder by [getKnexQuery()], with what
    the resolver adds to it on the native level. *)
Module Knex.
Record t := {
  from : QueryBuilder.t;
  alias : option string;
  innerJoins : list (string * string * string * string);
  whereRaw : list string;
  offset : option Z;
  limit : option Z
}.

Definition ofBuilder (qb : QueryBuilder.t) : t :=
  {| from := qb; alias := None; innerJoins := []; whereRaw := [];
     offset := None; limit := None |}.

Definition as_ (name : string) (q : t) : t :=
  {| from := from q; alias := Some name; innerJoins := innerJoins q;
     whereRaw := whereRaw q; offset := offset q; limit := limit q |}.

Definition innerJoin (table left op right : string) (q : t) : t :=
  {| from := from q; alias := alias q;
     innerJoins := innerJoins q ++ [(table, left, op, right)];
     whereRaw := whereRaw q; offset := offset q; limit := limit q |}.

(** [.where(knex.raw(text))]: the text goes to the engine as it is. *)
Definition where_ (raw : string) (q : t) : t :=
  {| from := from q; alias := alias q; innerJoins := innerJoins q;
     whereRaw := whereRaw q ++ [raw]; offset := offset q;
     limit := limit q |}.

Definition withOffset (n : Z) (q : t) : t :=
  {| from := from q; alias := alias q; innerJoins := innerJoins q;
     whereRaw := whereRaw q; offset := Some n; limit := limit q |}.

Definition withLimit (n : Z) (q : t) : t :=
  {| from := from q; alias := alias q; innerJoins := innerJoins q;
     whereRaw := whereRaw q; offset := offset q; limit := Some n |}.
End Knex.

Notation "x |> f" := (f x) (at level 45, left associativity, only parsing).

(** *** The storage session *)

(** What the resolver awaits from the entity manager.  [execute] returns the
    rows of a native query that selects one number per row (the count, or
    the note identity), as the list of those numbers. *)
Record EntityManager := {
  execute : Knex.t -> list Z;
  getResult : QueryBuilder.t -> list Note;
  getResultAndCount : QueryBuilder.t -> list Note * Z
}.

Inductive Statement :=
| Execute (q : Knex.t)
| GetResult (qb : QueryBuilder.t)
| GetResultAndCount (qb : QueryBuilder.t).

(** A resolver call issues statements in sequence and either returns a value
    or throws: the statements issued so far, and the value if any. *)
Definition Call (A : Type) : Type := list Statement * option A.

Definition ret {A} (a : A) : Call A := ([], Some a).

Definition throw {A} : Call A := ([], None).

Definition bind {A B} (m : Call A) (k : A -> Call B) : Call B :=
  match m with
  | (issued, Some a) => let (more, r) := k a in (issued ++ more, r)
  | (issued, None) => (issued, None)
  end.

Notation "x <- m ;; k" := (bind m (fun x => k))
  (at level 100, m at next level, right associativity, only parsing).

Definition awaitExecute (em : EntityManager) (q : Knex.t) : Call (list Z) :=
  ([Execute q], Some (execute em q)).

Definition awaitGetResult (em : EntityManager) (qb : QueryBuilder.t)
  : Call (list Note) :=
  ([GetResult qb], Some (getResult em qb)).

Definition awaitGetResultAndCount (em : EntityManager) (qb : QueryBuilder.t)
  : Call (list Note * Z) :=
  ([GetResultAndCount qb], Some (getResultAndCount em qb)).

Definition issued {A} (c : Call A) : list Statement := c.1.

Definition returned {A} (c : Call A) : option A := c.2.

(* ================================================================= *)
(** ** The note resolver (resolvers/note.resolver.ts) *)

(** The template literal handed to [knex.raw] in
    [fetchNoteIdsBySearchPhrase]. *)
Definition matchClause (searchPhrase : string) : string :=
  "note_fts5_index MATCH 'title:" +:+ dquote +:+ searchPhrase +:+ dquote
  +:+ " * OR body:" +:+ dquote +:+ searchPhrase +:+ dquote +:+ " * '".

(** The two native queries of [fetchNoteIdsBySearchPhrase], both derived
    from the same inner builder. *)
Definition innerQb (filters : QBFilterQuery) (sorters : list QBQueryOrderMap)
  : QueryBuilder.t :=
  QueryBuilder.create |> QueryBuilder.where_ filters
                      |> QueryBuilder.orderBy sorters.

Definition knexCountQuery (searchPhrase : string) (filters : QBFilterQuery)
           (sorters : list QBQueryOrderMap) : Knex.t :=
  innerQb filters sorters
    |> QueryBuilder.clone
    |> QueryBuilder.count "note_id" true
    |> Knex.ofBuilder
    |> Knex.innerJoin "note_fts5_index as fts_idx" "fts_idx.rowid" "="
                      "note.note_id"
    |> Knex.where_ (matchClause searchPhrase).

Definition knexSelectQuery (searchPhrase : string) (filters : QBFilterQuery)
           (sorters : list QBQueryOrderMap) (pagination : PaginationInput)
  : Knex.t :=
  innerQb filters sorters
    |> QueryBuilder.clone
    |> QueryBuilder.select ["note_id"]
    |> Knex.ofBuilder
    |> Knex.as_ "note"
    |> Knex.innerJoin "note_fts5_index as fts_idx" "fts_idx.rowid" "="
                      "note.note_id"
    |> Knex.where_ (matchClause searchPhrase)
    |> Knex.withOffset (offset pagination)
    |> Knex.withLimit (limit pagination).

(** [_totalCountResult[0].count] throws on an empty result. *)
Definition fetchNoteIdsBySearchPhrase (searchPhrase : string)
           (entityManager : EntityManager) (filters : QBFilterQuery)
           (sorters : list QBQueryOrderMap) (pagination : PaginationInput)
  : Call (Z * list Z * bool) :=
  _totalCountResult <-
    awaitExecute entityManager (knexCountQuery searchPhrase filters sorters) ;;
  totalCount <- match _totalCountResult with
                | [] => throw
                | row :: _ => ret row
                end ;;
  _idsResult <-
    awaitExecute entityManager
                 (knexSelectQuery searchPhrase filters sorters pagination) ;;
  let idsList := _idsResult in
  ret (totalCount, idsList,
       calcHasMorePages totalCount (limit pagination) (offset pagination)).

Definition extractNoteFields (_mappedFields : GraphQLMappedFields)
  : list string :=
  map (fun field => if String.eqb field "noteId" then "id" else field)
      (flatFields _mappedFields).

(** ["items" in nestedFields && relation in nestedFields.items.nestedFields] *)
Definition requested (relation : string) (_mappedFields : GraphQLMappedFields)
  : bool :=
  match lookupKey "items" (nestedFields _mappedFields) with
  | Some itemsFields => hasKey relation (nestedFields itemsFields)
  | None => false
  end.

(** The filter object of [searchNotes]: the date bounds, then one spread
    with a further property per identifier list that is defined. *)
Definition composeFilters (input : SearchNotesInput) : QBFilterQuery :=
  let filters : QBFilterQuery :=
    {[ "date" := Operators [op_gte (fromDate input); op_lte (toDate input)] ]} in
  let filters :=
    match sourceIds input with
    | Some ids => <["source" := Operators [op_in ids]]> filters
    | None => filters
    end in
  let filters :=
    match languageIds input with
    | Some ids => <["language" := Operators [op_in ids]]> filters
    | None => filters
    end in
  let filters :=
    match tagIds input with
    | Some ids =>
        <["tags" := Property "tag" (Property "id" (Operators [op_in ids]))]>
          filters
    | None => filters
    end in
  filters.

(** The [sorters] array of [searchNotes]. *)
Definition composeSorters (sortInput : option NoteMultiSortInput)
           (_mappedFields : GraphQLMappedFields) : list QBQueryOrderMap :=
  match sortInput with
  | Some sortInput =>
      map (fun value =>
             match field value with
             | NoteSortField.date =>
                 {| order_path := ["date"];
                    order_dir := QueryOrder.ofSort (sort value) |}
             | NoteSortField.languageId =>
                 {| order_path := ["language"; "id"];
                    order_dir := QueryOrder.ofSort (sort value) |}
             | NoteSortField.sourceId =>
                 {| order_path := ["source"; "id"];
                    order_dir := QueryOrder.ofSort (sort value) |}
             end)
          (sorts sortInput)
  | None =>
      {| order_path := ["date"]; order_dir := QueryOrder.ASC |}
      :: (if requested "tags" _mappedFields
          then [{| order_path := ["tags"; "tag"; "displayOrder"];
                   order_dir := QueryOrder.ASC |}]
          else [])
  end.

(** The builder [_qb] of [searchNotes] once the projection, the joins and
    the ordering are set. *)
Definition rowQb (_mappedFields : GraphQLMappedFields)
           (sorters : list QBQueryOrderMap) : QueryBuilder.t :=
  let _qb := QueryBuilder.create in
  let fields :=
    match lookupKey "items" (nestedFields _mappedFields) with
    | Some itemsFields => extractNoteFields itemsFields
    | None => []
    end in
  let _qb := _qb |> QueryBuilder.select fields in
  let _qb := if requested "source" _mappedFields
             then _qb |> QueryBuilder.leftJoinAndSelect "note.source" "source"
             else _qb in
  let _qb := if requested "language" _mappedFields
             then _qb |> QueryBuilder.leftJoinAndSelect "note.language"
                                                        "language"
             else _qb in
  let _qb := if requested "tags" _mappedFields
             then _qb |> QueryBuilder.leftJoinAndSelect "note.tags" "note_tag"
                      |> QueryBuilder.leftJoinAndSelect "note_tag.tag" "tag"
             else _qb in
  _qb |> QueryBuilder.orderBy sorters.

(** [notes.reduce((map, note) => { map[note.id] = note; return map }, {})] *)
Definition noteMapOf (notes : list Note) : gmap Z Note :=
  fold_left (fun map note => <[note_id note := note]> map) notes ∅.

(** [ids.map((id) => noteMap[id])] *)
Definition sortByIds (noteMap : gmap Z Note) (ids : list Z)
  : list (option Note) :=
  map (fun id => noteMap !! id) ids.

(** The row query of the phrase branch: the builder filtered to the ids. *)
Definition fetchByIdsQb (_mappedFields : GraphQLMappedFields)
           (sorters : list QBQueryOrderMap) (ids : list Z) : QueryBuilder.t :=
  rowQb _mappedFields sorters
    |> QueryBuilder.clone
    |> QueryBuilder.where_ {[ "id" := Operators [op_in ids] ]}.

(** [_mappedFields] is the requested-field tree that
    [getFieldsFromResolvedInfo(info)] hands over.  An identifier list or a
    phrase that is [undefined] is [None]. *)
Definition searchNotes (ctx : EntityManager)
           (_mappedFields : GraphQLMappedFields) (input : SearchNotesInput)
           (paginationInput : PaginationInput)
           (sortInput : option NoteMultiSortInput) : Call NotesPaginated :=
  let filters := composeFilters input in
  let sorters := composeSorters sortInput _mappedFields in
  let _qb := rowQb _mappedFields sorters in
  match searchPhrase input with
  | Some phrase =>
      results <- fetchNoteIdsBySearchPhrase phrase ctx filters sorters
                                            paginationInput ;;
      let totalCount := results.1.1 in
      let ids := results.1.2 in
      let hasMorePages := results.2 in
      notes <- awaitGetResult ctx
                 (_qb |> QueryBuilder.clone
                      |> QueryBuilder.where_
                           {[ "id" := Operators [op_in ids] ]}) ;;
      let noteMap := noteMapOf notes in
      let sortedByIdsArrayNotes := sortByIds noteMap ids in
      ret {| items := sortedByIdsArrayNotes; totalCount := totalCount;
             hasNextPage := hasMorePages |}
  | None =>
      results <- awaitGetResultAndCount ctx
                   (_qb |> QueryBuilder.clone
                        |> QueryBuilder.where_ filters
                        |> QueryBuilder.withOffset (offset paginationInput)
                        |> QueryBuilder.withLimit (limit paginationInput)) ;;
      let notes := results.1 in
      let totalCount := results.2 in
      ret {| items := map Some notes; totalCount := totalCount;
             hasNextPage :=
               calcHasMorePages totalCount (limit paginationInput)
                                (offset paginationInput) |}
  end.

(* ================================================================= *)
(** ** The storage layer

    The object-relational mapper and the SQLite engine are not part of the
    repository.  Their documented behaviour is modelled over a store of
    notes: the meaning of a filter object, the left join with the tag
    associations, ORDER BY, LIMIT and OFFSET.  What the engine leaves open is
    left open: the text-match semantics ([fts5]) and the order in which rows
    come out of a scan ([arrange]) are parameters of a session. *)

(** *** Filter objects *)

Definition holdsOperator (v : Z) (op : Operator) : bool :=
  match op with
  | op_gte a => a <=? v
  | op_lte b => v <=? b
  | op_in vs => existsb (Z.eqb v) vs
  end.

(** A condition on a scalar column is an operator object. *)
Definition holdsScalar (c : Condition) (v : Z) : bool :=
  match c with
  | Operators ops => forallb (holdsOperator v) ops
  | Property _ _ => false
  end.

(** A condition on a reference is an operator object on its identity, or a
    nested object on the identity property. *)
Definition holdsReference (c : Condition) (pk : Z) : bool :=
  match c with
  | Operators ops => forallb (holdsOperator pk) ops
  | Property name c' => String.eqb name "id" && holdsScalar c' pk
  end.

(** A condition on a tag association of a note. *)
Definition holdsNoteTag (c : Condition) (nt : NoteTag) : bool :=
  match c with
  | Operators ops => forallb (holdsOperator (noteTag_id nt)) ops
  | Property name c' =>
      String.eqb name "tag" && holdsReference c' (tag_id (noteTag_tag nt))
  end.

(** The condition on property [name], if the filter object has one. *)
Definition whereProperty (filters : QBFilterQuery) (name : string)
           (holds : Condition -> bool) : bool :=
  match filters !! name with
  | Some c => holds c
  | None => true
  end.

(** The conditions on the note's own columns and references. *)
Definition satisfiesColumns (filters : QBFilterQuery) (n : Note) : bool :=
  whereProperty filters "id" (fun c => holdsScalar c (note_id n))
  && whereProperty filters "date" (fun c => holdsScalar c (note_date n))
  && whereProperty filters "source" (fun c => holdsReference c (note_source n))
  && whereProperty filters "language"
                   (fun c => holdsReference c (note_language n)).

(** A note satisfies a filter object when its columns do and, for a
    condition on the to-many [tags] relation, one of its associations
    does. *)
Definition satisfies (filters : QBFilterQuery) (n : Note) : bool :=
  satisfiesColumns filters n
  && whereProperty filters "tags"
                   (fun c => existsb (holdsNoteTag c) (note_tags n)).

(** *** Rows *)

(** A row of the note table, left-joined with its tag associations when the
    query reaches into them. *)
Definition Row : Type := Note * option NoteTag.

Definition reachesTags (qb : QueryBuilder.t) : bool :=
  bool_decide (is_Some (QueryBuilder.condition qb !! "tags"))
  || existsb (fun o => bool_decide (head (order_path o) = Some "tags"))
             (QueryBuilder.order qb)
  || existsb (fun j => String.eqb j.1 "note.tags") (QueryBuilder.joins qb).

Definition rowsOf (joined : bool) (n : Note) : list Row :=
  if joined then
    match note_tags n with
    | [] => [(n, None)]
    | associations => map (fun nt => (n, Some nt)) associations
    end
  else [(n, None)].

Definition rowSatisfies (filters : QBFilterQuery) (r : Row) : bool :=
  satisfiesColumns filters r.1
  && whereProperty filters "tags"
                   (fun c => match r.2 with
                             | Some nt => holdsNoteTag c nt
                             | None => false
                             end).

(** *** ORDER BY *)

(** The value a row has under an order path; [None] is SQL's NULL. *)
Definition orderKey (path : list string) (r : Row) : option Z :=
  if decide (path = ["date"]) then Some (note_date r.1)
  else if decide (path = ["language"; "id"]) then Some (note_language r.1)
  else if decide (path = ["source"; "id"]) then Some (note_source r.1)
  else if decide (path = ["tags"; "tag"; "displayOrder"])
       then (fun nt => tag_displayOrder (noteTag_tag nt)) <$> r.2
  else None.

(** SQLite sorts NULL before every value. *)
Definition compareKeys (a b : option Z) : comparison :=
  match a, b with
  | None, None => Eq
  | None, Some _ => Lt
  | Some _, None => Gt
  | Some x, Some y => x ?= y
  end.

Definition descending (dir : QueryOrder.t) : bool :=
  match dir with
  | QueryOrder.ASC | QueryOrder.ofSort Sort.asc => false
  | QueryOrder.DESC | QueryOrder.ofSort Sort.desc => true
  end.

Definition compareTerm (o : QBQueryOrderMap) (r1 r2 : Row) : comparison :=
  let c := compareKeys (orderKey (order_path o) r1)
                       (orderKey (order_path o) r2) in
  if descending (order_dir o) then CompOpp c else c.

(** Terms compare in the order listed: a later term only decides between
    rows the earlier ones hold equal. *)
Fixpoint compareRows (sorters : list QBQueryOrderMap) (r1 r2 : Row)
  : comparison :=
  match sorters with
  | [] => Eq
  | o :: rest =>
      match compareTerm o r1 r2 with
      | Eq => compareRows rest r1 r2
      | c => c
      end
  end.

Fixpoint insertRow (sorters : list QBQueryOrderMap) (r : Row)
         (sorted : list Row) : list Row :=
  match sorted with
  | [] => [r]
  | x :: rest =>
      match compareRows sorters r x with
      | Gt => x :: insertRow sorters r rest
      | _ => r :: sorted
      end
  end.

(** Rows the ordering holds equal stay in the order they came in. *)
Definition sortRows (sorters : list QBQueryOrderMap) (rows : list Row)
  : list Row :=
  fold_right (insertRow sorters) [] rows.

(** The two terms of the default ordering, and the display-order a row has
    under the second. *)
Definition dateAscending : QBQueryOrderMap :=
  {| order_path := ["date"]; order_dir := QueryOrder.ASC |}.

Definition tagDisplayOrderAscending : QBQueryOrderMap :=
  {| order_path := ["tags"; "tag"; "displayOrder"];
     order_dir := QueryOrder.ASC |}.

Definition displayOrderOf (r : Row) : option Z :=
  (fun nt => tag_displayOrder (noteTag_tag nt)) <$> r.2.

(** *** LIMIT and OFFSET *)

(** A negative limit is no limit, a negative offset is no offset. *)
Definition page {A} (offset limit : option Z) (rows : list A) : list A :=
  let rows := match offset with
              | Some o => drop (Z.to_nat o) rows
              | None => rows
              end in
  match limit with
  | Some l => if l <? 0 then rows else take (Z.to_nat l) rows
  | None => rows
  end.

(** *** A session on a store *)

Record Sqlite := {
  store : list Note;
  fts5 : string -> Note -> bool;
  arrange : QueryBuilder.t -> list Row -> list Row
}.

(** The ordered rows of a builder's query, with the raw conditions of the
    native level.  The text index has an entry for every note, so the join
    with it keeps every row the match keeps. *)
Definition queryRows (db : Sqlite) (qb : QueryBuilder.t) (raw : list string)
  : list Row :=
  sortRows (QueryBuilder.order qb)
    (arrange db qb
       (filter (fun r => rowSatisfies (QueryBuilder.condition qb) r
                         && forallb (fun text => fts5 db text r.1) raw)
               (flat_map (rowsOf (reachesTags qb)) (store db)))).

Definition sqliteExecute (db : Sqlite) (q : Knex.t) : list Z :=
  let ids := map (fun r : Row => note_id r.1)
                 (queryRows db (Knex.from q) (Knex.whereRaw q)) in
  page (Knex.offset q) (Knex.limit q)
       (match QueryBuilder.selection (Knex.from q) with
        | SelectCount _ distinct =>
            [Z.of_nat (length (if distinct then remove_dups ids else ids))]
        | SelectFields _ => ids
        end).

(** The mapper folds the rows of one note into one entity, in the order of
    first appearance, its tag collection in row order. *)
Definition tagsOf (rows : list Row) (id : Z) : list NoteTag :=
  omap (fun r : Row => if note_id r.1 =? id then r.2 else None) rows.

Fixpoint firstById (seen : list Z) (rows : list Row) : list Note :=
  match rows with
  | [] => []
  | r :: rest =>
      if bool_decide (note_id r.1 ∈ seen) then firstById seen rest
      else r.1 :: firstById (note_id r.1 :: seen) rest
  end.

Definition hydrate (rows : list Row) : list Note :=
  map (fun n =>
         {| note_id := note_id n; note_internalId := note_internalId n;
            note_title := note_title n; note_body := note_body n;
            note_source := note_source n; note_language := note_language n;
            note_tags := tagsOf rows (note_id n);
            note_date := note_date n |})
      (firstById [] rows).

Definition sqliteGetResult (db : Sqlite) (qb : QueryBuilder.t) : list Note :=
  page (QueryBuilder.offset qb) (QueryBuilder.limit qb)
       (hydrate (queryRows db qb [])).

Definition sqliteGetResultAndCount (db : Sqlite) (qb : QueryBuilder.t)
  : list Note * Z :=
  let notes := hydrate (queryRows db qb []) in
  (page (QueryBuilder.offset qb) (QueryBuilder.limit qb) notes,
   Z.of_nat (length notes)).

Definition session (db : Sqlite) : EntityManager :=
  {| execute := sqliteExecute db;
     getResult := sqliteGetResult db;
     getResultAndCount := sqliteGetResultAndCount db |}.

(** The engine may hand rows out in any order, but hands out each row
    once. *)
Definition scans (db : Sqlite) : Prop :=
  forall qb rows, arrange db qb rows ≡ₚ rows.

(* ================================================================= *)
(** ** Reading quoted text

    SQLite reads a quoted run (a single-quoted SQL literal, a double-quoted
    FTS5 string) up to the first quote character that is not doubled; a
    doubled quote stands for one quote character inside the run. *)

(** [quotedRun q s]: [s] starts right after an opening quote [q]; the result
    is the content of the run and the text left after its closing quote. *)
Fixpoint quotedRun (q : ascii) (s : string) : option (string * string) :=
  match s with
  | EmptyString => None
  | String c rest =>
      if Ascii.eqb c q then
        match rest with
        | String c' rest' =>
            if Ascii.eqb c' q
            then (fun cr : string * string => (String q cr.1, cr.2))
                   <$> quotedRun q rest'
            else Some (EmptyString, rest)
        | EmptyString => Some (EmptyString, rest)
        end
      else (fun cr : string * string => (String c cr.1, cr.2))
             <$> quotedRun q rest
  end.

(** The text of [s] behind the first occurrence of character [c]. *)
Fixpoint behind (c : ascii) (s : string) : string :=
  match s with
  | EmptyString => EmptyString
  | String d rest => if Ascii.eqb d c then rest else behind c rest
  end.

(** The operand of MATCH in a raw condition: the SQL literal behind the
    first single quote. *)
Definition matchOperand (raw : string) : option (string * string) :=
  quotedRun "'" (behind "'" raw).

(** The first FTS5 string of a match expression. *)
Definition firstFtsString (expression : string) : option (string * string) :=
  quotedRun (ascii_of_nat 34) (behind (ascii_of_nat 34) expression).

(* ================================================================= *)
(** ** A sample store *)

Fixpoint contains (needle hay : string) : bool :=
  String.prefix needle hay
  || match hay with
     | EmptyString => false
     | String _ rest => contains needle rest
     end.

(** A stand-in for the text index: the phrase of the first FTS5 string of
    the MATCH operand occurs in the title or the body. *)
Definition substringMatch (raw : string) (n : Note) : bool :=
  match matchOperand raw with
  | Some (expression, _) =>
      match firstFtsString expression with
      | Some (phrase, _) =>
          contains phrase (note_title n) || contains phrase (note_body n)
      | None => false
      end
  | None => false
  end.

Definition tagFirst : Tag := {| tag_id := 1; tag_displayOrder := 1 |}.
Definition tagLate : Tag := {| tag_id := 2; tag_displayOrder := 5 |}.

Definition noteHarbour : Note :=
  {| note_id := 1; note_internalId := "int-1"; note_title := "harbour log";
     note_body := "tide tables for march"; note_source := 1;
     note_language := 2;
     note_tags := [{| noteTag_id := 1; noteTag_tag := tagLate |}];
     note_date := 10 |}.

Definition noteLighthouse : Note :=
  {| note_id := 2; note_internalId := "int-2"; note_title := "lighthouse";
     note_body := "spring tide warning"; note_source := 1;
     note_language := 2;
     note_tags := [{| noteTag_id := 2; noteTag_tag := tagFirst |}];
     note_date := 10 |}.

Definition noteCharts : Note :=
  {| note_id := 3; note_internalId := "int-3"; note_title := "charts";
     note_body := "soundings of the bay"; note_source := 2;
     note_language := 1;
     note_tags := [{| noteTag_id := 3; noteTag_tag := tagFirst |};
                   {| noteTag_id := 4; noteTag_tag := tagLate |}];
     note_date := 20 |}.

Definition noteTides : Note :=
  {| note_id := 4; note_internalId := "int-4"; note_title := "tides";
     note_body := "neap and spring"; note_source := 2; note_language := 1;
     note_tags := []; note_date := 30 |}.

(** The table in insertion order; a scan for a fetch by identity hands the
    rows out backwards, any other scan in table order. *)
Definition sampleDb : Sqlite :=
  {| store := [noteHarbour; noteLighthouse; noteCharts; noteTides];
     fts5 := substringMatch;
     arrange := fun qb rows =>
                  if bool_decide (is_Some (QueryBuilder.condition qb !! "id"))
                  then reverse rows else rows |}.

(** A session in which a note is deleted between the id query and the fetch
    by identity: the native queries see the sample store, the fetch sees it
    without the lighthouse note. *)
Definition sampleDbAfterDelete : Sqlite :=
  {| store := [noteHarbour; noteCharts; noteTides];
     fts5 := substringMatch;
     arrange := fun _ rows => rows |}.

Definition staleSession : EntityManager :=
  {| execute := sqliteExecute sampleDb;
     getResult := sqliteGetResult sampleDbAfterDelete;
     getResultAndCount := sqliteGetResultAndCount sampleDbAfterDelete |}.

(** A request for the notes with their tags, and one without. *)
Definition requestWithTags : GraphQLMappedFields :=
  MappedFields ["totalCount"] [("items", sampleFields)].

Definition requestFlat : GraphQLMappedFields :=
  MappedFields ["totalCount"]
    [("items", MappedFields ["noteId"; "title"] [])].

Definition tideSearch : SearchNotesInput :=
  {| fromDate := 0; toDate := 100; sourceIds := None; languageIds := None;
     tagIds := None; searchPhrase := Some "tide" |}.

(* ================================================================= *)
(** ** Statements of the specification *)

(** An optional identifier list admits a value when it is absent or holds
    the value. *)
Definition admits (ids : option (list Z)) (v : Z) : Prop :=
  match ids with
  | None => True
  | Some l => v ∈ l
  end.

(** The filter of a search request in the words of the specification. *)
Definition matchesRequest (input : SearchNotesInput) (n : Note) : Prop :=
  (fromDate input <= note_date n <= toDate input)
  /\ admits (sourceIds input) (note_source n)
  /\ admits (languageIds input) (note_language n)
  /\ match tagIds input with
     | None => True
     | Some l => exists nt, nt ∈ note_tags n /\ tag_id (noteTag_tag nt) ∈ l
     end.

(** The populate order as the specification words it for siblings: the key
    of an entry comes before every path below an entry that follows it in
    the same object. *)
Definition parentBeforeSiblingSubtrees (fields : GraphQLMappedFields) : Prop :=
  forall k1 sub1 k2 sub2 path,
    precedes (nestedFields fields) (k1, sub1) (k2, sub2) ->
    path ∈ getAllNestedKeys sub2 (k2 +:+ ".") ->
    precedes (getAllNestedKeys fields EmptyString) k1 path.

(** The reading of the secondary order term as one that leaves the order of
    the notes alone: rows of different notes compare as under the primary
    term only. *)
Definition leavesNoteOrder (sorters : list QBQueryOrderMap) : Prop :=
  forall r1 r2 : Row,
    note_id r1.1 <> note_id r2.1 ->
    compareRows sorters r1 r2 = compareRows (take 1 sorters) r1 r2.

(** Two native queries run over the same search: the same filter object and
    ordering on the builder, the same joins and the same raw conditions. *)
Definition sameSearch (q1 q2 : Knex.t) : Prop :=
  QueryBuilder.condition (Knex.from q1) = QueryBuilder.condition (Knex.from q2)
  /\ QueryBuilder.order (Knex.from q1) = QueryBuilder.order (Knex.from q2)
  /\ QueryBuilder.joins (Knex.from q1) = QueryBuilder.joins (Knex.from q2)
  /\ Knex.innerJoins q1 = Knex.innerJoins q2
  /\ Knex.whereRaw q1 = Knex.whereRaw q2.

(** A session that returns no more rows than a nonnegative LIMIT allows. *)
Definition honoursLimit (ctx : EntityManager) : Prop :=
  forall q l,
    Knex.limit q = Some l -> 0 <= l ->
    (length (execute ctx q) <= Z.to_nat l)%nat.

(** The handling of an empty id page as the specification words it: no row
    fetch, and the empty envelope with a zero count. *)
Definition skipsEmptyFetch (ctx : EntityManager)
           (_mappedFields : GraphQLMappedFields) (input : SearchNotesInput)
           (phrase : string) (paginationInput : PaginationInput)
           (sortInput : option NoteMultiSortInput) : Prop :=
  let call := searchNotes ctx _mappedFields input paginationInput sortInput in
  execute ctx (knexSelectQuery phrase (composeFilters input)
                 (composeSorters sortInput _mappedFields) paginationInput)
  = [] ->
  (forall qb, GetResult qb ∉ issued call)
  /\ returned call
     = Some {| items := []; totalCount := 0; hasNextPage := false |}.

(* ================================================================= *)
(** ** Resolve trees (utils/resolvers/utils.resolvers.ts)

    The tree that [parseResolveInfo] of graphql-parse-resolve-info hands
    over: per type name, the requested fields with their own trees.  The
    name, alias and arguments of a node are not read by the resolvers and
    are left out.  Both maps are in enumeration order. *)

#[local] Unset Elimination Schemes.
Inductive ResolveTree : Type :=
  ResolveNode (fieldsByTypeName : list (string * list (string * ResolveTree))).
#[local] Set Elimination Schemes.

Definition fieldsByTypeName (tree : ResolveTree)
  : list (string * list (string * ResolveTree)) :=
  match tree with ResolveNode types => types end.

(** Structural induction through both maps. *)
Fixpoint ResolveTree_ind (P : ResolveTree -> Prop)
  (step : forall types,
      Forall (fun ty : string * list (string * ResolveTree) =>
                Forall (fun entry : string * ResolveTree => P entry.2) ty.2)
             types ->
      P (ResolveNode types))
  (tree : ResolveTree) : P tree :=
  match tree with
  | ResolveNode types =>
      step types
        ((fix allTypes (l : list (string * list (string * ResolveTree)))
            : Forall (fun ty : string * list (string * ResolveTree) =>
                        Forall (fun entry : string * ResolveTree => P entry.2)
                               ty.2) l :=
            match l with
            | [] => List.Forall_nil _
            | ty :: rest =>
                List.Forall_cons _ ty rest
                  ((fix allFields (m : list (string * ResolveTree))
                      : Forall (fun entry : string * ResolveTree => P entry.2)
                               m :=
                      match m with
                      | [] => List.Forall_nil _
                      | entry :: more =>
                          List.Forall_cons _ entry more
                            (ResolveTree_ind P step entry.2) (allFields more)
                      end) ty.2)
                  (allTypes rest)
            end) types)
  end.

Definition isFlatField (tree : ResolveTree) : bool :=
  (length (fieldsByTypeName tree) =? 0)%nat.

(** [obj[key] = value]: an own key keeps its place, a new key goes last. *)
Fixpoint setKey {A} (key : string) (value : A) (obj : list (string * A))
  : list (string * A) :=
  match obj with
  | [] => [(key, value)]
  | (k, v) :: rest =>
      if String.eqb k key then (k, value) :: rest
      else (k, v) :: setKey key value rest
  end.

(** The callback of the [reduce] in [fetchResolveInfoNestedFields], given
    the result of the recursive call on the field's tree. *)
Definition mapField (fetch : ResolveTree -> option GraphQLMappedFields)
           (acc : option GraphQLMappedFields) (entry : string * ResolveTree)
  : option GraphQLMappedFields :=
  let (field, tree) := entry in
  match acc with
  | None => None
  | Some map =>
      if isFlatField tree
      then Some (MappedFields (flatFields map ++ [field]) (nestedFields map))
      else match fetch tree with
           | Some nested =>
               Some (MappedFields (flatFields map)
                                  (setKey field nested (nestedFields map)))
           | None => None
           end
  end.

(** [Object.values(resolvedInfo.fieldsByTypeName)[0]] is [undefined] when no
    type is listed, and [Object.keys(undefined)] throws: [None]. *)
Fixpoint fetchResolveInfoNestedFields (resolvedInfo : ResolveTree)
  : option GraphQLMappedFields :=
  match resolvedInfo with
  | ResolveNode types =>
      match types with
      | [] => None
      | (_, resourceTreeMap) :: _ =>
          fold_left (mapField fetchResolveInfoNestedFields)
            resourceTreeMap (Some (MappedFields [] []))
      end
  end.

(** [resolvedInfo] is what [parseResolveInfo(info)] returned: [None] for
    [null] or [undefined]. *)
Definition getFieldsFromResolvedInfo (resolvedInfo : option ResolveTree)
  : option GraphQLMappedFields :=
  match resolvedInfo with
  | Some tree => fetchResolveInfoNestedFields tree
  | None => Some (MappedFields [] [])
  end.


Fixpoint countNested (fields : GraphQLMappedFields) : nat :=
  match fields with
  | MappedFields _ nested =>
      list_sum (map (fun entry : string * GraphQLMappedFields =>
                       S (countNested entry.2)) nested)
  end.

(** The same tree without its leaves. *)
Fixpoint withoutLeaves (fields : GraphQLMappedFields) : GraphQLMappedFields :=
  match fields with
  | MappedFields _ nested =>
      MappedFields []
        (map (fun entry : string * GraphQLMappedFields =>
                (entry.1, withoutLeaves entry.2)) nested)
  end.

(** The keys of every object of the tree are pairwise distinct, as the own
    keys of a JavaScript object are. *)
Fixpoint distinctKeys (fields : GraphQLMappedFields) : bool :=
  match fields with
  | MappedFields _ nested =>
      bool_decide (NoDup (map fst nested))
      && forallb (fun entry : string * GraphQLMappedFields =>
                    distinctKeys entry.2) nested
  end.

(** Every field name of a resolve tree is free of dots, as GraphQL names
    are. *)
Fixpoint dotFreeNames (tree : ResolveTree) : bool :=
  match tree with
  | ResolveNode types =>
      forallb (fun ty : string * list (string * ResolveTree) =>
                 forallb (fun entry : string * ResolveTree =>
                            lacks "." entry.1 && dotFreeNames entry.2)
                         ty.2)
              types
  end.

(** A request as [parseResolveInfo] renders it: a note's id and title, its
    source with two columns, and its tags with their tag. *)
Definition leafNode : ResolveTree := ResolveNode [].

Definition sampleResolveTree : ResolveTree :=
  ResolveNode
    [("Note",
      [("noteId", leafNode); ("title", leafNode);
       ("source", ResolveNode [("Source", [("sourceId", leafNode);
                                           ("name", leafNode)])]);
       ("tags",
        ResolveNode
          [("NoteTag",
            [("noteTagId", leafNode);
             ("tag", ResolveNode [("Tag", [("tagId", leafNode);
                                           ("displayOrder", leafNode)])])])])])].

(* ================================================================= *)
(** ** The writes of the note resolver (resolvers/note.resolver.ts)

    The writes go through the entity manager to the tables of
    migrations/database.migration.ts.  The store is modelled by the note
    table, each note carrying its rows of note_tag, the tag table, and the
    next key of note_tag.  A transaction is the store at [begin]: a
    rollback goes back to it, a commit keeps the current one. *)

Record Database := {
  db_notes : list Note;
  db_tags : list Tag;
  db_nextNoteTagId : Z
}.

(** How a mutation ends: with a value, or with a thrown [Error]. *)
Inductive Outcome (A : Type) : Type :=
| Returned (value : A)
| Thrown (message : string).

Arguments Returned {A} value.
Arguments Thrown {A} message.

Record NoteTagAssociationInput := {
  assoc_tagId : Z;
  assoc_displayOrder : Z
}.

Record NoteAssociationInput := {
  assoc_noteId : Z;
  assoc_tags : list NoteTagAssociationInput
}.

Record NoteDeleteIntervalInput := {
  interval_fromDate : option Z;
  interval_toDate : Z
}.

Definition withTags (n : Note) (associations : list NoteTag) : Note :=
  {| note_id := note_id n; note_internalId := note_internalId n;
     note_title := note_title n; note_body := note_body n;
     note_source := note_source n; note_language := note_language n;
     note_tags := associations; note_date := note_date n |}.

(** [em.findOne(Note, { id })] *)
Definition findOneNote (id : Z) (db : Database) : option Note :=
  List.find (fun n => note_id n =? id) (db_notes db).

(** [em.find(Tag, { id: { $in: ids } })] *)
Definition findTags (ids : list Z) (db : Database) : list Tag :=
  List.filter (fun t => existsb (Z.eqb (tag_id t)) ids) (db_tags db).

Definition tagById (id : Z) (db : Database) : option Tag :=
  List.find (fun t => tag_id t =? id) (db_tags db).

(** [em.nativeDelete(NoteTag, { note: noteId })] *)
Definition nativeDeleteNoteTags (noteId : Z) (db : Database) : Database :=
  {| db_notes := map (fun n => if note_id n =? noteId then withTags n []
                               else n) (db_notes db);
     db_tags := db_tags db;
     db_nextNoteTagId := db_nextNoteTagId db |}.

(** The rows of note_tag for a list of tags, keyed from [next] on. *)
Fixpoint noteTagsFrom (next : Z) (tags : list Tag) : list NoteTag :=
  match tags with
  | [] => []
  | t :: rest =>
      {| noteTag_id := next; noteTag_tag := t |} :: noteTagsFrom (next + 1) rest
  end.

Definition tagIdsOf (n : Note) : list Z :=
  map (fun nt => tag_id (noteTag_tag nt)) (note_tags n).

(** [em.insertMany(NoteTag, rows)] for rows of one note.  The insert fails
    when a row breaks a constraint of the note_tag table: the foreign key to
    note, the foreign key to tag, or the unique index on (note_id, tag_id). *)
Definition insertManyNoteTags (noteId : Z) (tagIds : list Z) (db : Database)
  : option Database :=
  match findOneNote noteId db, mapM (fun id => tagById id db) tagIds with
  | Some note, Some tags =>
      if bool_decide (NoDup (tagIdsOf note ++ tagIds)) then
        Some {| db_notes :=
                  map (fun n =>
                         if note_id n =? noteId
                         then withTags n
                                (note_tags n
                                 ++ noteTagsFrom (db_nextNoteTagId db) tags)
                         else n) (db_notes db);
                db_tags := db_tags db;
                db_nextNoteTagId :=
                  db_nextNoteTagId db + Z.of_nat (length tags) |}
      else None
  | _, _ => None
  end.

(** [em.nativeDelete(Note, query)]; the rows of note_tag go with their note
    (ON DELETE CASCADE). *)
Definition nativeDeleteNotes (query : QBFilterQuery) (db : Database)
  : Database :=
  {| db_notes := List.filter (fun n => negb (satisfies query n)) (db_notes db);
     db_tags := db_tags db;
     db_nextNoteTagId := db_nextNoteTagId db |}.

(** [em.remove(note).flush()]: the row with the note's key goes. *)
Definition removeNote (note : Note) (db : Database) : Database :=
  {| db_notes := List.filter (fun n => negb (note_id n =? note_id note))
                             (db_notes db);
     db_tags := db_tags db;
     db_nextNoteTagId := db_nextNoteTagId db |}.

Definition deleteNote (id : Z) (db : Database) : Outcome bool * Database :=
  match findOneNote id db with
  | None => (Thrown "Note not found", db)
  | Some note => (Returned true, removeNote note db)
  end.

(** The tag ids of the request that the tag table does not hold, as
    [associateTagsWithNote] computes them from the tags it found. *)
Definition missingTagIds (tagIds : list Z) (db : Database) : list Z :=
  let tags := findTags tagIds db in
  let foundTagIds := map tag_id tags in
  List.filter (fun id => negb (bool_decide (id ∈ foundTagIds))) tagIds.

(** The display order of an association is not stored: note_tag has no such
    column.  An error of the delete or the insert is caught: the transaction
    is rolled back and the call returns false. *)
Definition associateTagsWithNote (associations : NoteAssociationInput)
           (db : Database) : Outcome bool * Database :=
  let noteId := assoc_noteId associations in
  let tagIds := map assoc_tagId (assoc_tags associations) in
  match findOneNote noteId db with
  | None =>
      (Thrown ("Note with id " +:+ pretty noteId +:+ " does not exist"), db)
  | Some _ =>
      let missing := missingTagIds tagIds db in
      if (0 <? length missing)%nat then
        (Thrown ("Tags with ids " +:+ String.concat ", " (map pretty missing)
                 +:+ " do not exist"), db)
      else
        match insertManyNoteTags noteId tagIds
                                 (nativeDeleteNoteTags noteId db) with
        | Some committed => (Returned true, committed)
        | None => (Returned false, db)
        end
  end.

(** The date condition of [deleteNotesInInterval]: a [Date] is always
    truthy, so the lower bound is the given one when there is one and the
    epoch otherwise. *)
Definition intervalQuery (interval : NoteDeleteIntervalInput)
  : QBFilterQuery :=
  match interval_fromDate interval with
  | Some fromDate =>
      {[ "date" := Operators [op_gte fromDate;
                              op_lte (interval_toDate interval)] ]}
  | None =>
      {[ "date" := Operators [op_gte 0; op_lte (interval_toDate interval)] ]}
  end.

(** An error of the delete would be caught and turned into false; deleting
    notes breaks no constraint of the tables, so the delete goes through. *)
Definition deleteNotesInInterval (interval : NoteDeleteIntervalInput)
           (db : Database) : Outcome bool * Database :=
  (Returned true, nativeDeleteNotes (intervalQuery interval) db).

(** The sample store with its tag table. *)
Definition sampleDatabase : Database :=
  {| db_notes := [noteHarbour; noteLighthouse; noteCharts; noteTides];
     db_tags := [tagFirst; tagLate];
     db_nextNoteTagId := 5 |}.

(* ================================================================= *)
(** ** The sort specification in its own words *)

(** The column a sort field names. *)
Definition sortKey (f : NoteSortField.t) (n : Note) : Z :=
  match f with
  | NoteSortField.date => note_date n
  | NoteSortField.languageId => note_language n
  | NoteSortField.sourceId => note_source n
  end.

(** Notes compared pair by pair of the specification, in listed order, each
    pair in its direction. *)
Fixpoint compareBySorts (sorts : list NoteSortInput) (n1 n2 : Note)
  : comparison :=
  match sorts with
  | [] => Eq
  | s :: rest =>
      let c := sortKey (field s) n1 ?= sortKey (field s) n2 in
      let c := match sort s with
               | Sort.asc => c
               | Sort.desc => CompOpp c
               end in
      match c with
      | Eq => compareBySorts rest n1 n2
      | _ => c
      end
  end.

(* ================================================================= *)
(** * Properties *)

(** ** Pagination policy *)

Lemma ceilDiv_is_ceiling (a b : Z) :
  0 < b -> (ceilDiv a b - 1) * b < a <= ceilDiv a b * b.
Proof.
  intros Hb. unfold ceilDiv.
  pose proof (Z.div_mod (- a) b ltac:(lia)) as Hdm.
  pose proof (Z.mod_pos_bound (- a) b Hb) as Hm.
  nia.
Qed.

Lemma calcHasMorePages_totalPages (totalCount limit : Z) :
  0 <= totalCount -> 1 <= limit ->
  (if negb (Z.rem totalCount limit =? 0)
   then totalCount / limit + 1 else totalCount / limit)
  = ceilDiv totalCount limit.
Proof.
  intros Ht Hl.
  rewrite Z.rem_mod_nonneg by lia.
  pose proof (ceilDiv_is_ceiling totalCount limit ltac:(lia)) as Hc.
  pose proof (Z.div_mod totalCount limit ltac:(lia)) as Hdm.
  pose proof (Z.mod_pos_bound totalCount limit ltac:(lia)) as Hm.
  destruct (Z.eqb_spec (totalCount mod limit) 0) as [E|E]; simpl; nia.
Qed.

Lemma calcHasMorePages_pages (totalCount limit offset : Z) :
  0 <= totalCount -> 1 <= limit ->
  calcHasMorePages totalCount limit offset
  = (offset / limit + 1 <? ceilDiv totalCount limit).
Proof.
  intros Ht Hl. unfold calcHasMorePages. cbv zeta.
  by rewrite calcHasMorePages_totalPages.
Qed.

Lemma calcHasMorePages_last_page (totalCount limit offset : Z) :
  0 <= totalCount -> 1 <= limit ->
  (ceilDiv totalCount limit - 1) * limit <= offset ->
  calcHasMorePages totalCount limit offset = false.
Proof.
  intros Ht Hl Hlast. rewrite calcHasMorePages_pages by done.
  apply Z.ltb_ge.
  assert (ceilDiv totalCount limit - 1 <= offset / limit); [| lia].
  apply Z.div_le_lower_bound; lia.
Qed.

(** C4: with a nonnegative total and offset and a limit of at least one,
    [calcHasMorePages] is the comparison of the current page
    floor(offset / limit) + 1 with the page count ceil(totalCount / limit);
    it is false for an empty total and false for any offset at or beyond the
    start of the last page. *)
Theorem calcHasMorePages_policy (totalCount limit offset : Z) :
  0 <= totalCount -> 0 <= offset -> 1 <= limit ->
  calcHasMorePages totalCount limit offset
    = (offset / limit + 1 <? ceilDiv totalCount limit)
  /\ calcHasMorePages totalCount limit offset
       = hasNextPagePolicy totalCount limit offset
  /\ (totalCount = 0 -> calcHasMorePages totalCount limit offset = false)
  /\ ((ceilDiv totalCount limit - 1) * limit <= offset ->
      calcHasMorePages totalCount limit offset = false).
Proof.
  intros Ht Ho Hl.
  pose proof (calcHasMorePages_pages totalCount limit offset Ht Hl) as Heq.
  repeat split; try exact Heq.
  - intros ->. apply calcHasMorePages_last_page; [lia | lia |].
    unfold ceilDiv. change (- 0) with 0. rewrite Zdiv_0_l. lia.
  - by apply calcHasMorePages_last_page.
Qed.

Lemma calcHasMorePages_policy_witness :
  calcHasMorePages 4 2 0 = (0 / 2 + 1 <? ceilDiv 4 2)
  /\ calcHasMorePages 4 2 0 = hasNextPagePolicy 4 2 0
  /\ (4 = 0 -> calcHasMorePages 4 2 0 = false)
  /\ ((ceilDiv 4 2 - 1) * 2 <= 0 -> calcHasMorePages 4 2 0 = false).
Proof. apply (calcHasMorePages_policy 4 2 0); lia. Defined.

(** ** Field-projection deriver *)

Lemma append_nil_l (b : string) : EmptyString +:+ b = b.
Proof. reflexivity. Qed.

Lemma append_cons (ch : ascii) (a b : string) :
  String ch a +:+ b = String ch (a +:+ b).
Proof. reflexivity. Qed.

Lemma append_assoc (a b c : string) : (a +:+ b) +:+ c = a +:+ b +:+ c.
Proof.
  induction a as [|ch a IH]; [done |].
  by rewrite !append_cons, IH.
Qed.

Lemma append_empty_r (a : string) : a +:+ EmptyString = a.
Proof.
  induction a as [|ch a IH]; [done |].
  by rewrite append_cons, IH.
Qed.

Lemma split_sep (sep : ascii) (rest : string) :
  split sep (String sep rest) = EmptyString :: split sep rest.
Proof. simpl. by rewrite Ascii.eqb_refl. Qed.

Lemma split_other (sep ch : ascii) (rest : string) :
  Ascii.eqb ch sep = false ->
  split sep (String ch rest)
  = match split sep rest with
    | [] => [String ch EmptyString]
    | part :: parts => String ch part :: parts
    end.
Proof. intros Hch. simpl. by rewrite Hch. Qed.

Lemma split_dot_free (key rest : string) :
  lacks "." key = true ->
  split "." (key +:+ "." +:+ rest) = key :: split "." rest.
Proof.
  induction key as [|ch key IH].
  - intros _. rewrite append_nil_l, append_cons, append_nil_l.
    apply split_sep.
  - intros Hlacks. simpl in Hlacks.
    apply andb_prop in Hlacks as [Hch Hkey].
    apply negb_true_iff in Hch.
    rewrite append_cons, (split_other _ _ _ Hch).
    by rewrite (IH Hkey).
Qed.

Lemma split_dotted (path : list string) :
  Forall (fun key => lacks "." key = true) path ->
  split "." (dotted path) = path ++ [EmptyString].
Proof.
  induction 1 as [|key path Hkey _ IH]; simpl; [done |].
  by rewrite split_dot_free, IH.
Qed.

Lemma dotted_snoc (path : list string) (key : string) :
  dotted (path ++ [key]) = (dotted path +:+ key) +:+ ".".
Proof.
  induction path as [|k path IH].
  - change (key +:+ "." +:+ EmptyString = (EmptyString +:+ key) +:+ ".").
    by rewrite append_nil_l, append_empty_r.
  - change (k +:+ "." +:+ dotted (path ++ [key])
            = ((k +:+ "." +:+ dotted path) +:+ key) +:+ ".").
    rewrite IH. by rewrite !append_assoc.
Qed.

(** On a dotted prefix, the code's reading of the enclosing key out of the
    split prefix is the last key of the path. *)
Lemma flattenField_rewriteLeaf (path : list string) (alias field : string) :
  Forall (fun key => lacks "." key = true) path ->
  flattenField (dotted path)
               (match path with [] => alias | _ => EmptyString end) field
  = rewriteLeaf path alias field.
Proof.
  intros Hpath. unfold flattenField, rewriteLeaf. cbv zeta.
  rewrite (split_dotted _ Hpath).
  destruct (last path) as [owner|] eqn:Hlast.
  - apply last_Some in Hlast as [init ->].
    rewrite !length_app. simpl.
    replace (1 <? length init + 1 + 1)%nat with true
      by (symmetry; apply Nat.ltb_lt; lia).
    replace (length init + 1 + 1 - 2)%nat with (length init) by lia.
    rewrite <- app_assoc. simpl. by rewrite nth_middle.
  - apply last_None in Hlast as ->. simpl. done.
Qed.

Lemma getFlattenFields_projectedColumns (fields : GraphQLMappedFields) :
  forall (path : list string) (alias : string),
    dotFreeKeys fields = true ->
    Forall (fun key => lacks "." key = true) path ->
    getFlattenFields fields (dotted path)
                     (match path with [] => alias | _ => EmptyString end)
    = projectedColumns path alias fields.
Proof.
  induction fields as [flat nested IH] using GraphQLMappedFields_ind.
  intros path alias Hkeys Hpath. simpl in *. f_equal.
  - apply map_ext. intros field. by apply flattenField_rewriteLeaf.
  - induction IH as [|[key sub] rest Hsub _ IHrest]; simpl; [done |].
    simpl in Hkeys.
    apply andb_prop in Hkeys as [[Hkey Hsubkeys]%andb_prop Hrest].
    f_equal; [| by apply IHrest].
    rewrite <- dotted_snoc.
    specialize (Hsub (path ++ [key]) alias Hsubkeys).
    destruct (path ++ [key]) as [|? ?] eqn:Hne.
    { by destruct path. }
    rewrite <- Hne in *. apply Hsub.
    apply Forall_app; split; [done | by constructor].
Qed.

(** C8: on a requested-field tree (whose keys, being GraphQL names, hold no
    dot) the flattened field list is the projection of the specification: a
    leaf below a nested object whose name starts with that object's key and
    ends in Id becomes the dotted prefix followed by id, a root leaf equal to
    the root-identity alias becomes id, every other leaf keeps its name
    behind its dotted prefix. *)
Theorem getFlattenFields_rewrites (fields : GraphQLMappedFields)
        (rootIdFieldReplacement : string) :
  dotFreeKeys fields = true ->
  getFlattenFields fields EmptyString rootIdFieldReplacement
  = projectedColumns [] rootIdFieldReplacement fields.
Proof.
  intros Hkeys.
  by apply (getFlattenFields_projectedColumns fields [] rootIdFieldReplacement).
Qed.

Lemma getFlattenFields_rewrites_witness :
  getFlattenFields sampleFields EmptyString "noteId"
  = projectedColumns [] "noteId" sampleFields.
Proof. apply getFlattenFields_rewrites. reflexivity. Defined.

Example getFlattenFields_sample :
  getFlattenFields sampleFields EmptyString "noteId"
  = ["id"; "title"; "source.id"; "source.name"; "tags.noteTagId";
     "tags.tag.id"; "tags.tag.displayOrder"].
Proof. reflexivity. Qed.

(** *** Populate paths *)

Ltac list_assoc :=
  repeat (progress (rewrite <- ?app_assoc, <- ?app_comm_cons)).

Lemma precedes_app_lr {A} (l1 l2 : list A) (x y : A) :
  x ∈ l1 -> y ∈ l2 -> precedes (l1 ++ l2) x y.
Proof.
  intros (a & b & ->)%list_elem_of_split (c & d & ->)%list_elem_of_split.
  exists a, (b ++ c), d. by list_assoc.
Qed.

Lemma precedes_infix {A} (before l after : list A) (x y : A) :
  precedes l x y -> precedes (before ++ l ++ after) x y.
Proof.
  intros (l1 & l2 & l3 & ->).
  exists (before ++ l1), l2, (l3 ++ after).
  by list_assoc.
Qed.

Lemma precedes_elem_of {A} (l : list A) (x y : A) :
  precedes l x y -> x ∈ l /\ y ∈ l.
Proof.
  intros (l1 & l2 & l3 & ->). split.
  - apply elem_of_app. right. by left.
  - apply elem_of_app. right. right.
    apply elem_of_app. right. by left.
Qed.

(** The paths below the entry [key] of an object are a segment of the
    object's first part, its own keys make up the second part. *)
Lemma getAllNestedKeys_entry flat nested prefix key nestedField :
  (key, nestedField) ∈ nested ->
  exists before after,
    getAllNestedKeys (MappedFields flat nested) prefix
    = before ++ getAllNestedKeys nestedField (prefix +:+ key +:+ ".")
             ++ after
    /\ (forall k sub, (k, sub) ∈ nested -> prefix +:+ k ∈ after).
Proof.
  intros (n1 & n2 & ->)%list_elem_of_split. cbn [getAllNestedKeys].
  rewrite flat_map_app. cbn [flat_map].
  set (below := fun entry : string * GraphQLMappedFields =>
                  let (k, sub) := entry in
                  getAllNestedKeys sub (prefix +:+ k +:+ ".")).
  exists (flat_map below n1),
         (flat_map below n2
          ++ map (fun k => prefix +:+ k)
                 (map fst (n1 ++ (key, nestedField) :: n2))).
  split.
  - by rewrite <- !app_assoc.
  - intros k sub Hin. apply elem_of_app. right.
    apply list_elem_of_In, in_map_iff. exists k. split; [done |].
    apply in_map_iff. exists (k, sub). split; [done |].
    by apply list_elem_of_In.
Qed.

Lemma getAllNestedKeys_content (fields : GraphQLMappedFields) :
  forall prefix,
    getAllNestedKeys fields prefix
    ≡ₚ map (fun e : string * string * GraphQLMappedFields =>
              e.1.1 +:+ e.1.2) (entries prefix fields).
Proof.
  induction fields as [flat nested IH] using GraphQLMappedFields_ind.
  intros prefix. cbn [getAllNestedKeys entries].
  induction IH as [|[key sub] rest Hsub _ IHrest]; [done |].
  cbn [flat_map map fst]. rewrite map_app. cbn [map fst snd].
  rewrite <- app_assoc, <- !Permutation_middle.
  apply Permutation_skip.
  cbn [snd] in Hsub.
  by rewrite (Hsub (prefix +:+ key +:+ ".")), IHrest.
Qed.

Lemma getAllNestedKeys_children_first (fields : GraphQLMappedFields) :
  forall prefix pre key sub path,
    (pre, key, sub) ∈ entries prefix fields ->
    path ∈ getAllNestedKeys sub (pre +:+ key +:+ ".") ->
    precedes (getAllNestedKeys fields prefix) path (pre +:+ key).
Proof.
  induction fields as [flat nested IH] using GraphQLMappedFields_ind.
  intros prefix pre key sub path Hentry Hpath.
  cbn [entries] in Hentry.
  apply list_elem_of_In, in_flat_map in Hentry as ([k0 sub0] & Hk0 & Hin).
  apply list_elem_of_In in Hk0.
  destruct (getAllNestedKeys_entry flat nested prefix k0 sub0 Hk0)
    as (before & after & Heq & Hkeys).
  rewrite Heq. destruct Hin as [[= <- <- <-] | Hdeep].
  - rewrite app_assoc. apply precedes_app_lr.
    + apply elem_of_app. by right.
    + by apply (Hkeys k0 sub0).
  - apply precedes_infix.
    rewrite Forall_forall in IH.
    apply (IH (k0, sub0) Hk0 _ pre key sub path); [| done].
    by apply list_elem_of_In.
Qed.

Lemma getAllNestedKeys_subtrees_first flat nested prefix k1 sub1 k2 sub2 path :
  (k1, sub1) ∈ nested ->
  (k2, sub2) ∈ nested ->
  path ∈ getAllNestedKeys sub2 (prefix +:+ k2 +:+ ".") ->
  precedes (getAllNestedKeys (MappedFields flat nested) prefix)
           path (prefix +:+ k1).
Proof.
  intros Hk1 Hk2 Hpath.
  destruct (getAllNestedKeys_entry flat nested prefix k2 sub2 Hk2)
    as (before & after & -> & Hkeys).
  rewrite app_assoc. apply precedes_app_lr.
  - apply elem_of_app. by right.
  - by apply (Hkeys k1 sub1).
Qed.

Lemma precedes_lookup {A} (l : list A) (x y : A) :
  precedes l x y ->
  exists i j, (i < j)%nat /\ l !! i = Some x /\ l !! j = Some y.
Proof.
  intros (l1 & l2 & l3 & ->).
  exists (length l1), (length l1 + S (length l2))%nat.
  split; [lia |]. split.
  - by rewrite list_lookup_middle.
  - rewrite lookup_app_r by lia.
    replace (length l1 + S (length l2) - length l1)%nat
      with (S (length l2)) by lia.
    simpl. by rewrite list_lookup_middle.
Qed.

(** C9, as the code has it: the populate list holds exactly the keys of
    [nestedFields] at every depth, each behind its dotted prefix; every path
    below an entry comes before the entry's own path (children before their
    parent); and within one object every path below any of its entries comes
    before every key of that object, so a parent comes after its sibling
    subtrees' paths. *)
Theorem getAllNestedKeys_order (fields : GraphQLMappedFields)
        (prefix : string) :
  getAllNestedKeys fields prefix
    ≡ₚ map (fun e : string * string * GraphQLMappedFields =>
              e.1.1 +:+ e.1.2) (entries prefix fields)
  /\ (forall pre key sub path,
         (pre, key, sub) ∈ entries prefix fields ->
         path ∈ getAllNestedKeys sub (pre +:+ key +:+ ".") ->
         precedes (getAllNestedKeys fields prefix) path (pre +:+ key))
  /\ (forall k1 sub1 k2 sub2 path,
         (k1, sub1) ∈ nestedFields fields ->
         (k2, sub2) ∈ nestedFields fields ->
         path ∈ getAllNestedKeys sub2 (prefix +:+ k2 +:+ ".") ->
         precedes (getAllNestedKeys fields prefix) path (prefix +:+ k1)).
Proof.
  split; [apply getAllNestedKeys_content |].
  split; [apply getAllNestedKeys_children_first |].
  destruct fields as [flat nested]. simpl nestedFields.
  intros k1 sub1 k2 sub2 path. apply getAllNestedKeys_subtrees_first.
Qed.

(** C9, as the specification words it, fails on a request for the tags with
    their tag and the source with its publisher: the parent path tags comes
    after the path source.publisher of its sibling's subtree. *)
Lemma getAllNestedKeys_sibling_counterexample :
  getAllNestedKeys twoBranches EmptyString
  = ["tags.tag"; "source.publisher"; "tags"; "source"]
  /\ ~ parentBeforeSiblingSubtrees twoBranches.
Proof.
  split; [reflexivity |].
  intros Hclaim.
  specialize (Hclaim "tags" (MappedFields [] [("tag", MappedFields ["name"] [])])
                     "source" (MappedFields [] [("publisher", MappedFields ["name"] [])])
                     "source.publisher").
  apply precedes_lookup in Hclaim as (i & j & Hij & Hi & Hj).
  - change (getAllNestedKeys twoBranches EmptyString)
      with ["tags.tag"; "source.publisher"; "tags"; "source"] in Hi, Hj.
    destruct i as [|[|[|[|i]]]]; simplify_eq/=.
    destruct j as [|[|[|[|j]]]]; simplify_eq/=; lia.
  - by exists [], [], [].
  - change (getAllNestedKeys
              (MappedFields [] [("publisher", MappedFields ["name"] [])])
              ("source" +:+ "."))
      with ["source.publisher"].
    apply elem_of_cons. by left.
Qed.

(** ** Filter composer *)

Lemma composeFilters_date (input : SearchNotesInput) :
  composeFilters input !! "date"
  = Some (Operators [op_gte (fromDate input); op_lte (toDate input)]).
Proof.
  unfold composeFilters.
  destruct (sourceIds input), (languageIds input), (tagIds input);
    by simplify_map_eq.
Qed.

Lemma composeFilters_source (input : SearchNotesInput) :
  composeFilters input !! "source"
  = (fun ids => Operators [op_in ids]) <$> sourceIds input.
Proof.
  unfold composeFilters.
  destruct (sourceIds input), (languageIds input), (tagIds input);
    by simplify_map_eq.
Qed.

Lemma composeFilters_language (input : SearchNotesInput) :
  composeFilters input !! "language"
  = (fun ids => Operators [op_in ids]) <$> languageIds input.
Proof.
  unfold composeFilters.
  destruct (sourceIds input), (languageIds input), (tagIds input);
    by simplify_map_eq.
Qed.

Lemma composeFilters_tags (input : SearchNotesInput) :
  composeFilters input !! "tags"
  = (fun ids => Property "tag" (Property "id" (Operators [op_in ids])))
      <$> tagIds input.
Proof.
  unfold composeFilters.
  destruct (sourceIds input), (languageIds input), (tagIds input);
    by simplify_map_eq.
Qed.

Lemma composeFilters_id (input : SearchNotesInput) :
  composeFilters input !! "id" = None.
Proof.
  unfold composeFilters.
  destruct (sourceIds input), (languageIds input), (tagIds input);
    by simplify_map_eq.
Qed.

Lemma existsb_eqb_elem_of (v : Z) (l : list Z) :
  existsb (Z.eqb v) l = true <-> v ∈ l.
Proof.
  rewrite existsb_exists. split.
  - intros (x & Hin & ->%Z.eqb_eq). by apply list_elem_of_In.
  - intros Hin. exists v. split; [by apply list_elem_of_In | apply Z.eqb_refl].
Qed.

Lemma holds_in_admits (ids : option (list Z)) (v : Z) :
  match (fun l => Operators [op_in l]) <$> ids with
  | Some c => holdsReference c v
  | None => true
  end = true <-> admits ids v.
Proof.
  destruct ids as [l|]; simpl; [| done].
  by rewrite andb_true_r, existsb_eqb_elem_of.
Qed.

Lemma holdsNoteTag_tag_in (l : list Z) (nt : NoteTag) :
  holdsNoteTag (Property "tag" (Property "id" (Operators [op_in l]))) nt = true
  <-> tag_id (noteTag_tag nt) ∈ l.
Proof.
  unfold holdsNoteTag, holdsReference, holdsScalar.
  rewrite !String.eqb_refl. cbn [andb forallb holdsOperator].
  by rewrite andb_true_r, existsb_eqb_elem_of.
Qed.

(** C3: a note satisfies the filter object composed for a search request
    exactly when its date lies within the inclusive bounds, its source and
    its language are admitted by the respective identifier lists (an absent
    list admits all), and, when tag identifiers are given, at least one of
    its tag associations has its tag among them. *)
Theorem composeFilters_conjunction (input : SearchNotesInput) (n : Note) :
  satisfies (composeFilters input) n = true <-> matchesRequest input n.
Proof.
  unfold satisfies, satisfiesColumns, whereProperty, matchesRequest.
  rewrite composeFilters_id, composeFilters_date, composeFilters_source,
    composeFilters_language, composeFilters_tags.
  rewrite !andb_true_iff, !holds_in_admits.
  cbn [holdsScalar forallb holdsOperator]. rewrite andb_true_r.
  rewrite andb_true_iff, !Z.leb_le.
  assert (Htags :
    match (fun ids => Property "tag" (Property "id" (Operators [op_in ids])))
            <$> tagIds input with
    | Some c => existsb (holdsNoteTag c) (note_tags n)
    | None => true
    end = true
    <-> match tagIds input with
        | None => True
        | Some l => exists nt, nt ∈ note_tags n /\ tag_id (noteTag_tag nt) ∈ l
        end).
  { destruct (tagIds input) as [l|]; simpl; [| done].
    rewrite existsb_exists. split.
    - intros (nt & Hin & Hnt). exists nt. split; [by apply list_elem_of_In |].
      by apply holdsNoteTag_tag_in.
    - intros (nt & Hin & Hnt). exists nt. split; [by apply list_elem_of_In |].
      by apply holdsNoteTag_tag_in. }
  rewrite Htags. tauto.
Qed.

(** ** Ordering *)

Lemma compareTerm_date (r1 r2 : Row) :
  compareTerm dateAscending r1 r2 = (note_date r1.1 ?= note_date r2.1).
Proof. reflexivity. Qed.

Lemma compareTerm_displayOrder (r1 r2 : Row) :
  compareTerm tagDisplayOrderAscending r1 r2
  = compareKeys (displayOrderOf r1) (displayOrderOf r2).
Proof. reflexivity. Qed.

(** C7, as the code has it: without a sort specification the ordering
    clause is date ascending, followed, exactly when the tags relation is
    requested, by the tag display-order ascending.  Rows of different dates
    are ordered by the date alone; rows of equal date are ordered by the tag
    display-order when the term is present, whether they belong to one note
    (its nested tag list) or to different notes, and are not ordered at all
    when it is absent. *)
Theorem composeSorters_default (_mappedFields : GraphQLMappedFields) :
  let sorters := composeSorters None _mappedFields in
  sorters
  = dateAscending
      :: (if requested "tags" _mappedFields
          then [tagDisplayOrderAscending] else [])
  /\ (tagDisplayOrderAscending ∈ sorters
      <-> requested "tags" _mappedFields = true)
  /\ (forall r1 r2 : Row,
         note_date r1.1 <> note_date r2.1 ->
         compareRows sorters r1 r2 = (note_date r1.1 ?= note_date r2.1))
  /\ (forall r1 r2 : Row,
         note_date r1.1 = note_date r2.1 ->
         compareRows sorters r1 r2
         = if requested "tags" _mappedFields
           then compareKeys (displayOrderOf r1) (displayOrderOf r2)
           else Eq).
Proof.
  cbv zeta. unfold composeSorters.
  fold dateAscending. fold tagDisplayOrderAscending.
  split; [done |]. split; [| split].
  - destruct (requested "tags" _mappedFields).
    + split; [done |]. intros _. apply elem_of_cons. right.
      apply elem_of_cons. by left.
    + split; [| done].
      intros [Heq | Hin%elem_of_nil]%elem_of_cons; [| done].
      discriminate Heq.
  - intros r1 r2 Hne. cbn [compareRows]. rewrite compareTerm_date.
    destruct (Z.compare_spec (note_date r1.1) (note_date r2.1)); done.
  - intros r1 r2 Heq. cbn [compareRows]. rewrite compareTerm_date, Heq.
    rewrite Z.compare_refl.
    destruct (requested "tags" _mappedFields); cbn [compareRows]; [| done].
    rewrite compareTerm_displayOrder.
    by destruct (compareKeys (displayOrderOf r1) (displayOrderOf r2)).
Qed.

(** C7, as the specification words it, fails: with the tags requested and no
    sort specification, two notes of the same date come out in the order of
    their tags' display-order, against the table order they have when the
    tags are not requested. *)
Lemma composeSorters_note_order_counterexample :
  ~ leavesNoteOrder (composeSorters None requestWithTags)
  /\ (map (fmap note_id) ∘ items)
       <$> returned (searchNotes (session sampleDb) requestWithTags tideSearch
                                 {| limit := 10; offset := 0 |} None)
     = Some [Some 2; Some 1; Some 4]
  /\ (map (fmap note_id) ∘ items)
       <$> returned (searchNotes (session sampleDb) requestFlat tideSearch
                                 {| limit := 10; offset := 0 |} None)
     = Some [Some 1; Some 2; Some 4].
Proof.
  split; [| split; vm_compute; reflexivity].
  intros Hclaim.
  specialize (Hclaim
    (noteLighthouse, Some {| noteTag_id := 2; noteTag_tag := tagFirst |})
    (noteHarbour, Some {| noteTag_id := 1; noteTag_tag := tagLate |})).
  vm_compute in Hclaim.
  assert (Lt = Eq) by (apply Hclaim; discriminate).
  discriminate.
Qed.

(** ** Text-match clause *)

(** C5 at a phrase with a single quote, and at one with a double quote: the
    phrase reaches the raw condition as it is, so the SQL literal that
    should hold the whole match expression ends inside the phrase, and the
    first FTS5 string ends inside the phrase. *)
Theorem matchClause_quote_ends_literal :
  matchOperand (matchClause "tide' OR 1=1 --")
  = Some ("title:" +:+ dquote +:+ "tide",
          " OR 1=1 --" +:+ dquote +:+ " * OR body:" +:+ dquote
          +:+ "tide' OR 1=1 --" +:+ dquote +:+ " * '")
  /\ exists expression,
      matchOperand (matchClause ("tide" +:+ dquote +:+ " OR " +:+ dquote
                                 +:+ "log"))
      = Some (expression, EmptyString)
      /\ firstFtsString expression
         = Some ("tide",
                 " OR " +:+ dquote +:+ "log" +:+ dquote +:+ " * OR body:"
                 +:+ dquote +:+ "tide" +:+ dquote +:+ " OR " +:+ dquote
                 +:+ "log" +:+ dquote +:+ " * ").
Proof.
  split; [vm_compute; reflexivity |].
  eexists. split; vm_compute; reflexivity.
Qed.

(** ** The resolver's calls *)

Lemma fetchNoteIdsBySearchPhrase_run ctx phrase filters sorters pagination
      total rest :
  execute ctx (knexCountQuery phrase filters sorters) = total :: rest ->
  fetchNoteIdsBySearchPhrase phrase ctx filters sorters pagination
  = ([Execute (knexCountQuery phrase filters sorters);
      Execute (knexSelectQuery phrase filters sorters pagination)],
     Some (total,
           execute ctx (knexSelectQuery phrase filters sorters pagination),
           calcHasMorePages total (limit pagination) (offset pagination))).
Proof.
  intros Hcount. unfold fetchNoteIdsBySearchPhrase, awaitExecute, bind, ret.
  by rewrite Hcount.
Qed.

Lemma searchNotes_phrase_run ctx _mappedFields input phrase paginationInput
      sortInput total rest :
  searchPhrase input = Some phrase ->
  let filters := composeFilters input in
  let sorters := composeSorters sortInput _mappedFields in
  let ids := execute ctx (knexSelectQuery phrase filters sorters
                                          paginationInput) in
  execute ctx (knexCountQuery phrase filters sorters) = total :: rest ->
  searchNotes ctx _mappedFields input paginationInput sortInput
  = ([Execute (knexCountQuery phrase filters sorters);
      Execute (knexSelectQuery phrase filters sorters paginationInput);
      GetResult (fetchByIdsQb _mappedFields sorters ids)],
     Some {| items :=
               sortByIds
                 (noteMapOf
                    (getResult ctx (fetchByIdsQb _mappedFields sorters ids)))
                 ids;
             totalCount := total;
             hasNextPage :=
               calcHasMorePages total (limit paginationInput)
                                (offset paginationInput) |}).
Proof.
  intros Hphrase filters sorters ids Hcount.
  unfold searchNotes. rewrite Hphrase.
  fold filters. fold sorters.
  rewrite (fetchNoteIdsBySearchPhrase_run _ _ _ _ _ _ _ Hcount).
  reflexivity.
Qed.

(** *** The id-to-note record *)

Lemma noteMapOf_fold_Some (notes : list Note) :
  forall (acc : gmap Z Note) (id : Z) (n : Note),
    fold_left (fun map note => <[note_id note := note]> map) notes acc !! id
    = Some n ->
    (n ∈ notes /\ note_id n = id) \/ acc !! id = Some n.
Proof.
  induction notes as [|note notes IH]; intros acc id n Hlook; simpl in *.
  - by right.
  - apply IH in Hlook as [[Hin Hid] | Hacc].
    + left. split; [by apply elem_of_cons; right | done].
    + destruct (decide (note_id note = id)) as [Heq | Hne].
      * rewrite Heq, lookup_insert_eq in Hacc. injection Hacc as <-.
        left. split; [by apply elem_of_cons; left | done].
      * rewrite lookup_insert_ne in Hacc by done. by right.
Qed.

Lemma noteMapOf_fold_is_Some (notes : list Note) :
  forall (acc : gmap Z Note) (id : Z),
    (exists n, n ∈ notes /\ note_id n = id) \/ is_Some (acc !! id) ->
    is_Some (fold_left (fun map note => <[note_id note := note]> map)
                       notes acc !! id).
Proof.
  induction notes as [|note notes IH]; intros acc id Hsome; simpl.
  - destruct Hsome as [(n & Hin & _) | Hacc]; [| done].
    by apply elem_of_nil in Hin.
  - apply IH.
    destruct (decide (note_id note = id)) as [Heq | Hne].
    + right. rewrite Heq, lookup_insert_eq. by eexists.
    + destruct Hsome as [(n & Hin & Hid) | Hacc].
      * left. exists n. split; [| done].
        apply elem_of_cons in Hin as [-> | Hin]; [done | done].
      * right. by rewrite lookup_insert_ne.
Qed.

Lemma noteMapOf_Some (notes : list Note) (id : Z) (n : Note) :
  noteMapOf notes !! id = Some n -> n ∈ notes /\ note_id n = id.
Proof.
  intros [Hfound | Hempty]%noteMapOf_fold_Some; [done |].
  by rewrite lookup_empty in Hempty.
Qed.

Lemma noteMapOf_None (notes : list Note) (id : Z) :
  (forall n, n ∈ notes -> note_id n <> id) -> noteMapOf notes !! id = None.
Proof.
  intros Hmiss. destruct (noteMapOf notes !! id) as [n|] eqn:Hlook; [| done].
  apply noteMapOf_Some in Hlook as [Hin Hid]. by destruct (Hmiss n Hin).
Qed.

Lemma noteMapOf_found (notes : list Note) (id : Z) :
  (exists n, n ∈ notes /\ note_id n = id) ->
  exists n, noteMapOf notes !! id = Some n /\ note_id n = id.
Proof.
  intros Hrow.
  destruct (noteMapOf_fold_is_Some notes ∅ id (or_introl Hrow)) as [n Hn].
  exists n. split; [done |]. by apply noteMapOf_Some in Hn as [_ Hid].
Qed.

(** C10: on the phrase branch the returned items have one entry per id, at
    the id's position, and the entry of an id that has no row among the
    fetched rows is the undefined hole. *)
Theorem searchNotes_one_entry_per_id (ctx : EntityManager)
        (_mappedFields : GraphQLMappedFields) (input : SearchNotesInput)
        (phrase : string) (paginationInput : PaginationInput)
        (sortInput : option NoteMultiSortInput) :
  let filters := composeFilters input in
  let sorters := composeSorters sortInput _mappedFields in
  let ids := execute ctx (knexSelectQuery phrase filters sorters
                                          paginationInput) in
  let notes := getResult ctx (fetchByIdsQb _mappedFields sorters ids) in
  searchPhrase input = Some phrase ->
  execute ctx (knexCountQuery phrase filters sorters) <> [] ->
  exists result,
    returned (searchNotes ctx _mappedFields input paginationInput sortInput)
    = Some result
    /\ length (items result) = length ids
    /\ (forall i id,
           ids !! i = Some id ->
           (forall n, n ∈ notes -> note_id n <> id) ->
           items result !! i = Some None)
    /\ (forall i id,
           ids !! i = Some id ->
           (exists n, n ∈ notes /\ note_id n = id) ->
           exists n, items result !! i = Some (Some n) /\ note_id n = id).
Proof.
  intros filters sorters ids notes Hphrase Hcount.
  destruct (execute ctx (knexCountQuery phrase filters sorters))
    as [|total rest] eqn:Hrows; [done |].
  rewrite (searchNotes_phrase_run _ _ _ _ _ _ _ _ Hphrase Hrows).
  eexists. split; [reflexivity |]. cbn [items].
  fold filters sorters ids notes. unfold sortByIds.
  split; [by rewrite length_map |]. split.
  - intros i id Hi Hmiss.
    rewrite list_lookup_fmap, Hi. simpl. by rewrite noteMapOf_None.
  - intros i id Hi Hrow.
    destruct (noteMapOf_found notes id Hrow) as (n & Hn & Hid).
    exists n. rewrite list_lookup_fmap, Hi. simpl. by rewrite Hn.
Qed.

(** ** Text-match resolver *)

(** C2: a phrase search issues exactly two native queries, the count query
    and then the id query, over the same filter object, ordering, text-index
    join and match condition; the count query is an aggregate without limit
    or offset and its first row is the total; the id query carries the
    limit and offset of the pagination request and its rows are the id list,
    at most limit of them; the flag is [calcHasMorePages] of the total, the
    limit and the offset. *)
Theorem fetchNoteIdsBySearchPhrase_two_queries (ctx : EntityManager)
        (phrase : string) (filters : QBFilterQuery)
        (sorters : list QBQueryOrderMap) (pagination : PaginationInput) :
  let countQuery := knexCountQuery phrase filters sorters in
  let selectQuery := knexSelectQuery phrase filters sorters pagination in
  let call :=
    fetchNoteIdsBySearchPhrase phrase ctx filters sorters pagination in
  execute ctx countQuery <> [] ->
  honoursLimit ctx ->
  0 <= limit pagination ->
  issued call = [Execute countQuery; Execute selectQuery]
  /\ sameSearch countQuery selectQuery
  /\ QueryBuilder.condition (Knex.from selectQuery) = filters
  /\ QueryBuilder.order (Knex.from selectQuery) = sorters
  /\ Knex.innerJoins selectQuery
     = [("note_fts5_index as fts_idx", "fts_idx.rowid", "=", "note.note_id")]
  /\ Knex.whereRaw selectQuery = [matchClause phrase]
  /\ QueryBuilder.selection (Knex.from countQuery) = SelectCount "note_id" true
  /\ Knex.limit countQuery = None /\ Knex.offset countQuery = None
  /\ QueryBuilder.limit (Knex.from countQuery) = None
  /\ QueryBuilder.offset (Knex.from countQuery) = None
  /\ QueryBuilder.selection (Knex.from selectQuery) = SelectFields ["note_id"]
  /\ Knex.limit selectQuery = Some (limit pagination)
  /\ Knex.offset selectQuery = Some (offset pagination)
  /\ (length (execute ctx selectQuery) <= Z.to_nat (limit pagination))%nat
  /\ exists totalMatchCount,
      head (execute ctx countQuery) = Some totalMatchCount
      /\ returned call
         = Some (totalMatchCount, execute ctx selectQuery,
                 calcHasMorePages totalMatchCount (limit pagination)
                                  (offset pagination)).
Proof.
  intros countQuery selectQuery call Hcount Hlimit Hnonneg.
  destruct (execute ctx countQuery) as [|total rest] eqn:Hrows; [done |].
  subst call.
  rewrite (fetchNoteIdsBySearchPhrase_run _ _ _ _ _ _ _ Hrows).
  repeat split.
  - by apply Hlimit.
  - by exists total.
Qed.

(** ** The storage layer *)

Lemma insertRow_Permutation sorters (r : Row) (rows : list Row) :
  insertRow sorters r rows ≡ₚ r :: rows.
Proof.
  induction rows as [|x rows IH]; simpl; [done |].
  destruct (compareRows sorters r x); try done.
  rewrite IH. apply Permutation_swap.
Qed.

Lemma sortRows_Permutation sorters (rows : list Row) :
  sortRows sorters rows ≡ₚ rows.
Proof.
  induction rows as [|r rows IH]; simpl; [done |].
  by rewrite insertRow_Permutation, IH.
Qed.

Lemma queryRows_Permutation (db : Sqlite) qb raw :
  scans db ->
  queryRows db qb raw
  ≡ₚ filter (fun r : Row =>
               rowSatisfies (QueryBuilder.condition qb) r
               && forallb (fun text => fts5 db text r.1) raw)
            (flat_map (rowsOf (reachesTags qb)) (store db)).
Proof.
  intros Hscan. unfold queryRows.
  by rewrite sortRows_Permutation, (Hscan qb).
Qed.

Lemma rowsOf_note (joined : bool) (n : Note) (r : Row) :
  r ∈ rowsOf joined n -> r.1 = n.
Proof.
  unfold rowsOf. destruct joined.
  - destruct (note_tags n) as [|nt nts].
    + by intros ->%list_elem_of_singleton.
    + intros (nt' & <- & _)%list_elem_of_In%in_map_iff. done.
  - by intros ->%list_elem_of_singleton.
Qed.

Lemma rowsOf_inhabited (joined : bool) (n : Note) :
  exists r, r ∈ rowsOf joined n /\ r.1 = n.
Proof.
  unfold rowsOf. destruct joined.
  - destruct (note_tags n) as [|nt nts].
    + exists (n, None). split; [by apply list_elem_of_singleton | done].
    + exists (n, Some nt). split; [by left | done].
  - exists (n, None). split; [by apply list_elem_of_singleton | done].
Qed.

Lemma queryRows_stored (db : Sqlite) qb raw (r : Row) :
  scans db -> r ∈ queryRows db qb raw -> r.1 ∈ store db.
Proof.
  intros Hscan Hin. rewrite (queryRows_Permutation db qb raw Hscan) in Hin.
  apply list_elem_of_filter in Hin as [_ Hin].
  apply list_elem_of_In, in_flat_map in Hin as (n & Hn & Hr).
  apply list_elem_of_In, rowsOf_note in Hr as ->. by apply list_elem_of_In.
Qed.

Lemma page_elem_of {A} (o l : option Z) (rows : list A) (x : A) :
  x ∈ page o l rows -> x ∈ rows.
Proof.
  unfold page. intros Hin.
  assert (Hdrop : forall k, x ∈ drop k rows -> x ∈ rows).
  { intros k Hk. rewrite <- (take_drop k rows). apply elem_of_app. by right. }
  assert (Htake : forall k (xs : list A), x ∈ take k xs -> x ∈ xs).
  { intros k xs Hk. rewrite <- (take_drop k xs). apply elem_of_app. by left. }
  destruct o as [o|], l as [l|]; try destruct (l <? 0); eauto.
Qed.

Lemma page_limit {A} (o : option Z) (l : Z) (rows : list A) :
  0 <= l -> (length (page o (Some l) rows) <= Z.to_nat l)%nat.
Proof.
  intros Hl. unfold page.
  replace (l <? 0) with false by (symmetry; apply Z.ltb_ge; lia).
  rewrite length_take. lia.
Qed.

Lemma page_empty {A} (o l : Z) (rows : list A) :
  1 <= l -> page (Some o) (Some l) rows = [] ->
  (length rows <= Z.to_nat o)%nat.
Proof.
  intros Hl. unfold page.
  replace (l <? 0) with false by (symmetry; apply Z.ltb_ge; lia).
  intros [Hzero | Hnil]%take_nil_inv; [lia |].
  by apply drop_nil_inv.
Qed.

Lemma length_remove_dups_le (l : list Z) :
  (length (remove_dups l) <= length l)%nat.
Proof.
  induction l as [|x l IH]; simpl; [done |].
  case_decide; simpl; lia.
Qed.

Lemma sqliteExecute_count (db : Sqlite) phrase filters sorters :
  sqliteExecute db (knexCountQuery phrase filters sorters)
  = [Z.of_nat
       (length
          (remove_dups
             (map (fun r : Row => note_id r.1)
                  (queryRows db
                     (QueryBuilder.count "note_id" true
                                         (innerQb filters sorters))
                     [matchClause phrase]))))].
Proof. reflexivity. Qed.

Lemma sqliteExecute_select (db : Sqlite) phrase filters sorters pagination :
  sqliteExecute db (knexSelectQuery phrase filters sorters pagination)
  = page (Some (offset pagination)) (Some (limit pagination))
         (map (fun r : Row => note_id r.1)
              (queryRows db
                 (QueryBuilder.select ["note_id"] (innerQb filters sorters))
                 [matchClause phrase])).
Proof. reflexivity. Qed.

Lemma session_honoursLimit (db : Sqlite) : honoursLimit (session db).
Proof.
  intros q l Hq Hl. simpl. unfold sqliteExecute. rewrite Hq.
  by apply page_limit.
Qed.

(** The ids of the id query are identities of stored notes. *)
Lemma sqliteExecute_select_stored (db : Sqlite) phrase filters sorters
      pagination (id : Z) :
  scans db ->
  id ∈ sqliteExecute db (knexSelectQuery phrase filters sorters pagination) ->
  exists n, n ∈ store db /\ note_id n = id.
Proof.
  intros Hscan Hin. rewrite sqliteExecute_select in Hin.
  apply page_elem_of, list_elem_of_In, in_map_iff in Hin as (r & <- & Hr).
  exists r.1. split; [| done].
  apply list_elem_of_In in Hr. by apply (queryRows_stored db _ _ r Hscan Hr).
Qed.

Lemma firstById_elem_of (rows : list Row) :
  forall (seen : list Z) (r : Row),
    r ∈ rows -> note_id r.1 ∉ seen ->
    exists n, n ∈ firstById seen rows /\ note_id n = note_id r.1.
Proof.
  induction rows as [|r0 rows IH]; intros seen r Hin Hfresh.
  - by apply elem_of_nil in Hin.
  - simpl. case_bool_decide as Hseen.
    + apply elem_of_cons in Hin as [-> | Hin]; [done |].
      by apply IH.
    + destruct (decide (note_id r.1 = note_id r0.1)) as [Heq | Hne].
      * exists r0.1. split; [by left | done].
      * apply elem_of_cons in Hin as [-> | Hin]; [done |].
        destruct (IH (note_id r0.1 :: seen) r Hin) as (n & Hn & Hid).
        { intros [? | ?]%elem_of_cons; done. }
        exists n. split; [by right | done].
Qed.

Lemma hydrate_elem_of (rows : list Row) (r : Row) :
  r ∈ rows -> exists n, n ∈ hydrate rows /\ note_id n = note_id r.1.
Proof.
  intros Hin.
  destruct (firstById_elem_of rows [] r Hin) as (n & Hn & Hid).
  { apply not_elem_of_nil. }
  eexists. split.
  - unfold hydrate. apply list_elem_of_In, in_map_iff.
    exists n. split; [reflexivity | by apply list_elem_of_In].
  - done.
Qed.

Lemma rowSatisfies_ids (ids : list Z) (r : Row) :
  note_id r.1 ∈ ids ->
  rowSatisfies {[ "id" := Operators [op_in ids] ]} r = true.
Proof.
  intros Hin. unfold rowSatisfies, satisfiesColumns, whereProperty.
  rewrite lookup_singleton_eq, !lookup_singleton_ne by done.
  cbn [holdsScalar forallb holdsOperator].
  apply existsb_eqb_elem_of in Hin. by rewrite Hin.
Qed.

Lemma fetchByIdsQb_unpaged _mappedFields sorters ids :
  QueryBuilder.offset (fetchByIdsQb _mappedFields sorters ids) = None
  /\ QueryBuilder.limit (fetchByIdsQb _mappedFields sorters ids) = None.
Proof.
  unfold fetchByIdsQb, rowQb.
  by destruct (requested "source" _mappedFields),
       (requested "language" _mappedFields), (requested "tags" _mappedFields).
Qed.

(** The fetch by identity returns a row for every stored note whose
    identity was asked for, whatever order the rows come in. *)
Lemma sqliteGetResult_fetches (db : Sqlite) _mappedFields sorters ids
      (n0 : Note) :
  scans db -> n0 ∈ store db -> note_id n0 ∈ ids ->
  exists n,
    n ∈ sqliteGetResult db (fetchByIdsQb _mappedFields sorters ids)
    /\ note_id n = note_id n0.
Proof.
  intros Hscan Hstored Hasked. unfold sqliteGetResult.
  destruct (fetchByIdsQb_unpaged _mappedFields sorters ids) as [-> ->].
  cbn [page].
  set (qb := fetchByIdsQb _mappedFields sorters ids).
  destruct (rowsOf_inhabited (reachesTags qb) n0) as (r & Hr & Hr1).
  destruct (hydrate_elem_of (queryRows db qb []) r) as (n & Hn & Hid).
  - rewrite (queryRows_Permutation db qb [] Hscan).
    apply list_elem_of_filter. split.
    + change (QueryBuilder.condition qb)
        with ({[ "id" := Operators [op_in ids] ]} : QBFilterQuery).
      rewrite rowSatisfies_ids by (by rewrite Hr1). done.
    + apply list_elem_of_In, in_flat_map. exists n0.
      split; by apply list_elem_of_In.
  - exists n. split; [done |]. by rewrite Hid, Hr1.
Qed.

(** ** Search orchestrator *)

Lemma sortByIds_identities (notes : list Note) (ids : list Z) :
  (forall id, id ∈ ids -> exists n, n ∈ notes /\ note_id n = id) ->
  map (fmap note_id) (sortByIds (noteMapOf notes) ids) = map Some ids.
Proof.
  unfold sortByIds. induction ids as [|id ids IH]; intros Hrows; [done |].
  cbn [map]. f_equal.
  - destruct (noteMapOf_found notes id) as (n & -> & Hid).
    + apply Hrows. by left.
    + simpl. by rewrite Hid.
  - apply IH. intros id' Hin. apply Hrows. by right.
Qed.

(** C1: on the phrase branch the identities of the returned items are, in
    order, the ids the text-match resolver returned, for every store, every
    text-match semantics and every order in which the storage engine hands
    out the rows of the fetch by identity. *)
Theorem searchNotes_items_follow_ids (db : Sqlite)
        (_mappedFields : GraphQLMappedFields) (input : SearchNotesInput)
        (phrase : string) (paginationInput : PaginationInput)
        (sortInput : option NoteMultiSortInput) :
  let ids :=
    execute (session db)
            (knexSelectQuery phrase (composeFilters input)
                             (composeSorters sortInput _mappedFields)
                             paginationInput) in
  scans db ->
  searchPhrase input = Some phrase ->
  exists result,
    returned (searchNotes (session db) _mappedFields input paginationInput
                          sortInput)
    = Some result
    /\ map (fmap note_id) (items result) = map Some ids.
Proof.
  intros ids Hscan Hphrase.
  rewrite (searchNotes_phrase_run (session db) _ _ _ _ _ _ []
             Hphrase (sqliteExecute_count db _ _ _)).
  eexists. split; [reflexivity |]. cbn [items].
  apply sortByIds_identities. intros id Hasked.
  destruct (sqliteExecute_select_stored db _ _ _ _ _ Hscan Hasked)
    as (n0 & Hstored & <-).
  by apply (sqliteGetResult_fetches db).
Qed.

Lemma sampleDb_scans : scans sampleDb.
Proof.
  intros qb rows. simpl. case_bool_decide; [apply reverse_Permutation | done].
Qed.

Lemma searchNotes_items_follow_ids_witness :
  exists result,
    returned (searchNotes (session sampleDb) requestFlat tideSearch
                          {| limit := 2; offset := 0 |} None)
    = Some result
    /\ map (fmap note_id) (items result)
       = map Some
             (execute (session sampleDb)
                (knexSelectQuery "tide" (composeFilters tideSearch)
                   (composeSorters None requestFlat)
                   {| limit := 2; offset := 0 |})).
Proof.
  apply (searchNotes_items_follow_ids sampleDb requestFlat tideSearch
           "tide" {| limit := 2; offset := 0 |} None).
  - exact sampleDb_scans.
  - reflexivity.
Defined.

(** On the sample store the fetch by identity hands the two rows out in the
    opposite order of the ids. *)
Example searchNotes_sample_page :
  execute (session sampleDb)
          (knexSelectQuery "tide" (composeFilters tideSearch)
             (composeSorters None requestFlat)
             {| limit := 2; offset := 0 |})
  = [1; 2]
  /\ map note_id
         (getResult (session sampleDb)
            (fetchByIdsQb requestFlat
               (composeSorters None requestFlat) [1; 2]))
     = [2; 1]
  /\ (map (fmap note_id) ∘ items)
       <$> returned (searchNotes (session sampleDb) requestFlat tideSearch
                                 {| limit := 2; offset := 0 |} None)
     = Some [Some 1; Some 2].
Proof. repeat split; vm_compute; reflexivity. Qed.

Lemma searchNotes_one_entry_per_id_witness :
  exists result,
    returned (searchNotes staleSession requestFlat tideSearch
                          {| limit := 10; offset := 0 |} None)
    = Some result
    /\ length (items result) = 3%nat
    /\ items result !! 1%nat = Some None.
Proof.
  destruct (searchNotes_one_entry_per_id staleSession requestFlat tideSearch
              "tide" {| limit := 10; offset := 0 |} None)
    as (result & Hret & Hlen & Hhole & _).
  - reflexivity.
  - vm_compute. discriminate.
  - exists result. split; [exact Hret |]. split; [exact Hlen |].
    apply (Hhole 1%nat 2); [reflexivity |].
    intros n Hn. vm_compute in Hn.
    apply elem_of_cons in Hn as [-> | Hn]; [discriminate |].
    apply elem_of_cons in Hn as [-> | Hn]; [discriminate |].
    by apply elem_of_nil in Hn.
Defined.

Lemma fetchNoteIdsBySearchPhrase_two_queries_witness :
  let filters := composeFilters tideSearch in
  let sorters := composeSorters None requestFlat in
  let pagination := {| limit := 2; offset := 1 |} in
  issued (fetchNoteIdsBySearchPhrase "tide" (session sampleDb) filters
                                     sorters pagination)
  = [Execute (knexCountQuery "tide" filters sorters);
     Execute (knexSelectQuery "tide" filters sorters pagination)]
  /\ returned (fetchNoteIdsBySearchPhrase "tide" (session sampleDb) filters
                                          sorters pagination)
     = Some (3, [2; 4], true).
Proof.
  intros filters sorters pagination.
  destruct (fetchNoteIdsBySearchPhrase_two_queries (session sampleDb) "tide"
              filters sorters pagination)
    as (Hissued & Hrest).
  - vm_compute. discriminate.
  - apply session_honoursLimit.
  - simpl. lia.
  - split; [exact Hissued |]. vm_compute. reflexivity.
Defined.

(** C6, as the code has it: when the id page of a phrase search is empty,
    the fetch by identity is still issued, with the empty id set, and the
    call returns the envelope with no items, the count of the matching notes
    as the total (at most the offset, so zero on the first page) and no next
    page. *)
Theorem searchNotes_empty_page (db : Sqlite)
        (_mappedFields : GraphQLMappedFields) (input : SearchNotesInput)
        (phrase : string) (paginationInput : PaginationInput)
        (sortInput : option NoteMultiSortInput) :
  let filters := composeFilters input in
  let sorters := composeSorters sortInput _mappedFields in
  let countQuery := knexCountQuery phrase filters sorters in
  let selectQuery := knexSelectQuery phrase filters sorters paginationInput in
  let call :=
    searchNotes (session db) _mappedFields input paginationInput sortInput in
  scans db ->
  searchPhrase input = Some phrase ->
  1 <= limit paginationInput ->
  0 <= offset paginationInput ->
  execute (session db) selectQuery = [] ->
  exists total,
    execute (session db) countQuery = [total]
    /\ 0 <= total <= offset paginationInput
    /\ issued call
       = [Execute countQuery; Execute selectQuery;
          GetResult (fetchByIdsQb _mappedFields sorters [])]
    /\ returned call
       = Some {| items := []; totalCount := total; hasNextPage := false |}.
Proof.
  intros filters sorters countQuery selectQuery call
         Hscan Hphrase Hlimit Hoffset Hempty.
  subst call countQuery selectQuery. cbn [execute session] in *.
  rewrite sqliteExecute_count.
  set (counted := queryRows db _ [matchClause phrase]).
  set (total := Z.of_nat
                  (length (remove_dups
                             (map (fun r : Row => note_id r.1) counted)))).
  assert (Hbound : 0 <= total <= offset paginationInput).
  { rewrite sqliteExecute_select in Hempty.
    apply page_empty in Hempty; [| done].
    rewrite length_map in Hempty.
    pose proof (length_remove_dups_le
                  (map (fun r : Row => note_id r.1) counted)) as Hdups.
    rewrite length_map in Hdups.
    assert (Hsame : length counted
                    = length (queryRows db
                                (QueryBuilder.select ["note_id"]
                                   (innerQb filters sorters))
                                [matchClause phrase])).
    { subst counted. apply Permutation_length.
      rewrite !(queryRows_Permutation db _ _ Hscan). done. }
    subst total. lia. }
  exists total. split; [done |]. split; [done |].
  rewrite (searchNotes_phrase_run (session db) _ _ _ _ _ total []
             Hphrase (sqliteExecute_count db _ _ _)).
  fold filters sorters. cbn [execute session]. rewrite Hempty.
  split; [done |]. cbn [returned snd sortByIds map].
  rewrite calcHasMorePages_last_page; [done | lia | lia |].
  pose proof (ceilDiv_is_ceiling total (limit paginationInput) ltac:(lia)).
  lia.
Qed.

Lemma searchNotes_empty_page_witness :
  exists total,
    execute (session sampleDb)
            (knexCountQuery "tide" (composeFilters tideSearch)
                            (composeSorters None requestFlat))
    = [total]
    /\ returned (searchNotes (session sampleDb) requestFlat tideSearch
                             {| limit := 1; offset := 5 |} None)
       = Some {| items := []; totalCount := total; hasNextPage := false |}.
Proof.
  destruct (searchNotes_empty_page sampleDb requestFlat tideSearch "tide"
              {| limit := 1; offset := 5 |} None)
    as (total & Hcount & _ & _ & Hret).
  - exact sampleDb_scans.
  - reflexivity.
  - simpl. lia.
  - simpl. lia.
  - vm_compute. reflexivity.
  - exists total. split; [exact Hcount | exact Hret].
Defined.

(** C6, as the specification words it, fails on the sample store: a search
    for tide at offset 5 has an empty id page, yet the fetch by identity is
    issued and the total is 3, not 0. *)
Lemma searchNotes_empty_page_counterexample :
  ~ skipsEmptyFetch (session sampleDb) requestFlat tideSearch "tide"
                    {| limit := 1; offset := 5 |} None
  /\ issued (searchNotes (session sampleDb) requestFlat tideSearch
                         {| limit := 1; offset := 5 |} None)
     = [Execute (knexCountQuery "tide" (composeFilters tideSearch)
                                (composeSorters None requestFlat));
        Execute (knexSelectQuery "tide" (composeFilters tideSearch)
                                 (composeSorters None requestFlat)
                                 {| limit := 1; offset := 5 |});
        GetResult (fetchByIdsQb requestFlat
                                (composeSorters None requestFlat) [])]
  /\ returned (searchNotes (session sampleDb) requestFlat tideSearch
                           {| limit := 1; offset := 5 |} None)
     = Some {| items := []; totalCount := 3; hasNextPage := false |}.
Proof.
  assert (Hret :
    returned (searchNotes (session sampleDb) requestFlat tideSearch
                          {| limit := 1; offset := 5 |} None)
    = Some {| items := []; totalCount := 3; hasNextPage := false |})
    by (vm_compute; reflexivity).
  split; [| split; [vm_compute; reflexivity | exact Hret]].
  intros Hclaim. destruct Hclaim as [_ Hzero]; [vm_compute; reflexivity |].
  rewrite Hret in Hzero. discriminate Hzero.
Qed.

(* ================================================================= *)
(** * Further properties *)

(** ** Pagination policy *)

Lemma calcHasMorePages_window (totalCount limit offset : Z) :
  0 <= totalCount -> 1 <= limit ->
  calcHasMorePages totalCount limit offset
  = ((offset / limit + 1) * limit <? totalCount).
Proof.
  intros Ht Hl. rewrite calcHasMorePages_pages by done.
  pose proof (ceilDiv_is_ceiling totalCount limit ltac:(lia)) as Hc.
  destruct (Z.ltb_spec (offset / limit + 1) (ceilDiv totalCount limit));
    symmetry; [apply Z.ltb_lt | apply Z.ltb_ge]; nia.
Qed.

(** X1: at an offset that is a multiple of the limit the flag says exactly
    whether rows remain behind the page: it is true if and only if
    offset + limit < totalCount. *)
Theorem calcHasMorePages_aligned (totalCount limit offset : Z) :
  0 <= totalCount -> 0 <= offset -> 1 <= limit ->
  offset mod limit = 0 ->
  calcHasMorePages totalCount limit offset = (offset + limit <? totalCount).
Proof.
  intros Ht Ho Hl Haligned. rewrite calcHasMorePages_window by done.
  pose proof (Z.div_mod offset limit ltac:(lia)) as Hdm.
  f_equal. nia.
Qed.

Lemma calcHasMorePages_aligned_witness :
  calcHasMorePages 4 2 2 = (2 + 2 <? 4).
Proof. apply calcHasMorePages_aligned; [lia | lia | lia | reflexivity]. Defined.

(** X2: at any offset the flag never hides a next page (it is true whenever
    offset + limit < totalCount), and when it is true rows do lie behind
    the offset (offset + 1 < totalCount). *)
Theorem calcHasMorePages_never_hides (totalCount limit offset : Z) :
  0 <= totalCount -> 0 <= offset -> 1 <= limit ->
  (offset + limit < totalCount ->
   calcHasMorePages totalCount limit offset = true)
  /\ (calcHasMorePages totalCount limit offset = true ->
      offset + 1 < totalCount).
Proof.
  intros Ht Ho Hl. rewrite calcHasMorePages_window by done.
  pose proof (Z.div_mod offset limit ltac:(lia)) as Hdm.
  pose proof (Z.mod_pos_bound offset limit ltac:(lia)) as Hm.
  split.
  - intros Hmore. apply Z.ltb_lt. nia.
  - intros Hflag%Z.ltb_lt. nia.
Qed.

Lemma calcHasMorePages_never_hides_witness :
  (3 + 2 < 7 -> calcHasMorePages 7 2 3 = true)
  /\ (calcHasMorePages 7 2 3 = true -> 3 + 1 < 7).
Proof. apply calcHasMorePages_never_hides; lia. Defined.

(** X3: the flag is monotone: once it is false it stays false at every
    larger offset, and once it is true it stays true for every larger
    total. *)
Theorem calcHasMorePages_monotone (totalCount limit offset : Z) :
  0 <= totalCount -> 0 <= offset -> 1 <= limit ->
  (forall later, offset <= later ->
                 calcHasMorePages totalCount limit offset = false ->
                 calcHasMorePages totalCount limit later = false)
  /\ (forall larger, totalCount <= larger ->
                     calcHasMorePages totalCount limit offset = true ->
                     calcHasMorePages larger limit offset = true).
Proof.
  intros Ht Ho Hl. split.
  - intros later Hlater. rewrite !calcHasMorePages_window by done.
    intros Hflag%Z.ltb_ge. apply Z.ltb_ge.
    pose proof (Z.div_le_mono offset later limit ltac:(lia) Hlater). nia.
  - intros larger Hlarger. rewrite !calcHasMorePages_window by lia.
    intros Hflag%Z.ltb_lt. apply Z.ltb_lt. lia.
Qed.

Lemma calcHasMorePages_monotone_witness :
  (forall later, 4 <= later ->
                 calcHasMorePages 5 2 4 = false ->
                 calcHasMorePages 5 2 later = false)
  /\ (forall larger, 5 <= larger ->
                     calcHasMorePages 5 2 4 = true ->
                     calcHasMorePages larger 2 4 = true).
Proof. apply calcHasMorePages_monotone; lia. Defined.

(** ** Deriving the field tree *)

Lemma mapField_fold_is_Some (fetch : ResolveTree -> option GraphQLMappedFields)
      (resourceTreeMap : list (string * ResolveTree)) :
  Forall (fun entry : string * ResolveTree =>
            isFlatField entry.2 = false -> is_Some (fetch entry.2))
         resourceTreeMap ->
  forall acc,
    is_Some (fold_left (mapField fetch) resourceTreeMap (Some acc)).
Proof.
  induction 1 as [|[field tree] rest Htree _ IH]; intros acc; simpl.
  - by eexists.
  - cbn [snd] in Htree.
    destruct (isFlatField tree) eqn:Hflat; [apply IH |].
    destruct (Htree eq_refl) as [nested ->]. apply IH.
Qed.

(** The recursion itself never fails, since it is entered only below fields
    that list a type. *)
Lemma fetchResolveInfoNestedFields_None (tree : ResolveTree) :
  fetchResolveInfoNestedFields tree = None <-> isFlatField tree = true.
Proof.
  induction tree as [types IH] using ResolveTree_ind.
  destruct types as [|[ty resourceTreeMap] rest]; [done |].
  cbn [fetchResolveInfoNestedFields]. split; [| done].
  intros Hnone. exfalso.
  apply Forall_cons in IH as [Hfields _]. cbn [snd] in Hfields.
  destruct (mapField_fold_is_Some fetchResolveInfoNestedFields
              resourceTreeMap) with (acc := MappedFields [] [])
    as [r Hr].
  - eapply Forall_impl; [exact Hfields |].
    intros [field sub] Hsub Hflat. cbn [snd] in *.
    destruct (fetchResolveInfoNestedFields sub); [by eexists |].
    destruct Hsub as [Hsub _]. rewrite Hsub in Hflat; done.
  - rewrite Hr in Hnone. discriminate.
Qed.

(** X4: deriving the field tree throws exactly when the parsed request is
    there but lists no type at its root (a request for a scalar); without a
    parsed request the empty tree is returned, and a sub-selection below
    the root never makes the derivation fail. *)
Theorem getFieldsFromResolvedInfo_fails (resolvedInfo : option ResolveTree) :
  (getFieldsFromResolvedInfo resolvedInfo = None
   <-> exists tree, resolvedInfo = Some tree /\ isFlatField tree = true)
  /\ getFieldsFromResolvedInfo None = Some (MappedFields [] []).
Proof.
  split; [| done]. destruct resolvedInfo as [tree|]; cbn.
  - rewrite fetchResolveInfoNestedFields_None. split.
    + intros Hflat. by exists tree.
    + by intros (tree' & [= <-] & Hflat).
  - split; [done |]. by intros (tree & ? & _).
Qed.

Lemma setKey_fresh {A} (key : string) (value : A) (obj : list (string * A)) :
  key ∉ map fst obj -> setKey key value obj = obj ++ [(key, value)].
Proof.
  induction obj as [|[k v] obj IH]; intros Hfresh; [done |].
  cbn [setKey]. apply not_elem_of_cons in Hfresh as [Hne Hfresh].
  destruct (String.eqb_spec k key) as [-> | _]; [done |].
  by rewrite IH.
Qed.

Lemma setKey_keys {A} (key : string) (value : A) (obj : list (string * A)) :
  map fst (setKey key value obj)
  = if bool_decide (key ∈ map fst obj) then map fst obj
    else map fst obj ++ [key].
Proof.
  induction obj as [|[k v] obj IH]; [done |].
  cbn [setKey map fst]. destruct (String.eqb_spec k key) as [-> | Hne].
  - rewrite bool_decide_eq_true_2 by (by left). done.
  - cbn [map fst]. rewrite IH. case_bool_decide as Hin.
    + rewrite bool_decide_eq_true_2 by (by right). done.
    + rewrite bool_decide_eq_false_2; [done |].
      intros [? | ?]%elem_of_cons; congruence.
Qed.

Lemma setKey_elem_of {A} (key : string) (value : A) (obj : list (string * A))
      (entry : string * A) :
  entry ∈ setKey key value obj -> entry = (key, value) \/ entry ∈ obj.
Proof.
  induction obj as [|[k v] obj IH]; cbn [setKey].
  - intros ->%list_elem_of_singleton. by left.
  - destruct (String.eqb_spec k key) as [-> | Hne].
    + intros [-> | Hin]%elem_of_cons; [by left | right; by right].
    + intros [-> | Hin]%elem_of_cons; [right; by left |].
      destruct (IH Hin) as [-> | Hobj]; [by left | right; by right].
Qed.

(** The fields of a type in the order requested, split by kind. *)
Lemma mapField_fold_split (fetch : ResolveTree -> option GraphQLMappedFields)
      (resourceTreeMap : list (string * ResolveTree)) :
  forall acc r,
    NoDup (map fst (nestedFields acc) ++ map fst resourceTreeMap) ->
    fold_left (mapField fetch) resourceTreeMap (Some acc) = Some r ->
    flatFields r
    = flatFields acc
      ++ map fst (List.filter (fun entry : string * ResolveTree =>
                                 isFlatField entry.2) resourceTreeMap)
    /\ exists derived,
        nestedFields r = nestedFields acc ++ derived
        /\ Forall2 (fun (entry : string * ResolveTree)
                        (kv : string * GraphQLMappedFields) =>
                      kv.1 = entry.1 /\ fetch entry.2 = Some kv.2)
                   (List.filter (fun entry : string * ResolveTree =>
                                   negb (isFlatField entry.2))
                                resourceTreeMap)
                   derived.
Proof.
  induction resourceTreeMap as [|[field tree] rest IH]; intros acc r Hdistinct.
  - simpl. intros [= <-]. rewrite !app_nil_r. split; [done |].
    exists []. by rewrite app_nil_r.
  - cbn [fold_left mapField List.filter snd].
    apply NoDup_app in Hdistinct as (Hacc & Hdisjoint & Hrest).
    cbn [map fst] in Hrest, Hdisjoint. apply NoDup_cons in Hrest as [Hfield Hrest].
    destruct (isFlatField tree) eqn:Hflat; cbn [negb].
    + intros Hfold. apply IH in Hfold as [Hflatr Hnested].
      * cbn [flatFields nestedFields] in *. split.
        -- rewrite Hflatr. cbn [map fst]. by rewrite <- app_assoc.
        -- exact Hnested.
      * cbn [nestedFields]. apply NoDup_app. split; [done |].
        split; [| done]. intros k Hk Hin. apply (Hdisjoint k Hk). by right.
    + destruct (fetch tree) as [nested|] eqn:Hfetch.
      2:{ intros Hfold. exfalso. clear -Hfold.
          induction rest as [|[f t] rest IHrest]; [done |].
          by apply IHrest. }
      intros Hfold.
      assert (Hfresh : field ∉ map fst (nestedFields acc)).
      { intros Hin. apply (Hdisjoint field Hin). by left. }
      apply IH in Hfold as [Hflatr (derived & Hnested & Hderived)].
      * cbn [flatFields nestedFields] in *. split; [done |].
        rewrite (setKey_fresh _ _ _ Hfresh) in Hnested.
        exists ((field, nested) :: derived). split.
        -- rewrite Hnested. by rewrite <- app_assoc.
        -- by constructor.
      * cbn [nestedFields]. rewrite (setKey_fresh _ _ _ Hfresh).
        rewrite map_app. cbn [map fst]. rewrite <- app_assoc. cbn [app].
        apply NoDup_app. split; [done |]. split.
        -- intros k Hk [-> | Hin]%elem_of_cons; [done |].
           apply (Hdisjoint k Hk). by right.
        -- by apply NoDup_cons.
Qed.

(** X5: the derived tree splits the fields requested on the first listed
    type by kind and keeps their order: [flatFields] are the names of the
    fields without sub-selection, the keys of [nestedFields] the names of
    those with one, each holding the tree derived from that field; what is
    requested under further type names is not read. *)
Theorem fetchResolveInfoNestedFields_split (ty : string)
        (resourceTreeMap : list (string * ResolveTree))
        (others : list (string * list (string * ResolveTree)))
        (fields : GraphQLMappedFields) :
  NoDup (map fst resourceTreeMap) ->
  fetchResolveInfoNestedFields (ResolveNode ((ty, resourceTreeMap) :: others))
  = Some fields ->
  flatFields fields
  = map fst (List.filter (fun entry : string * ResolveTree =>
                            isFlatField entry.2) resourceTreeMap)
  /\ Forall2 (fun (entry : string * ResolveTree)
                  (kv : string * GraphQLMappedFields) =>
                kv.1 = entry.1
                /\ fetchResolveInfoNestedFields entry.2 = Some kv.2)
             (List.filter (fun entry : string * ResolveTree =>
                             negb (isFlatField entry.2)) resourceTreeMap)
             (nestedFields fields).
Proof.
  intros Hdistinct Hfetch. cbn [fetchResolveInfoNestedFields] in Hfetch.
  apply mapField_fold_split in Hfetch
    as [Hflat (derived & Hnested & Hderived)]; [| done].
  cbn [flatFields nestedFields app] in *. by rewrite Hnested.
Qed.

Lemma fetchResolveInfoNestedFields_split_witness :
  exists fields,
    fetchResolveInfoNestedFields sampleResolveTree = Some fields
    /\ flatFields fields = ["noteId"; "title"]
    /\ map fst (nestedFields fields) = ["source"; "tags"].
Proof.
  exists sampleFields. split; [reflexivity |].
  destruct (fetchResolveInfoNestedFields_split "Note"
              [("noteId", leafNode); ("title", leafNode);
               ("source", ResolveNode [("Source", [("sourceId", leafNode);
                                                   ("name", leafNode)])]);
               ("tags",
                ResolveNode
                  [("NoteTag",
                    [("noteTagId", leafNode);
                     ("tag", ResolveNode [("Tag", [("tagId", leafNode);
                                                   ("displayOrder", leafNode)])])])])]
              [] sampleFields) as [Hflat _].
  - refine (bool_decide_unpack _ _). vm_compute. exact I.
  - reflexivity.
  - split; [exact Hflat | reflexivity].
Defined.

Lemma forallb_setKey {A} (P : string * A -> bool) (key : string) (value : A)
      (obj : list (string * A)) :
  P (key, value) = true -> forallb P obj = true ->
  forallb P (setKey key value obj) = true.
Proof.
  intros Hnew Hobj. apply forallb_forall. intros entry Hin.
  apply list_elem_of_In, setKey_elem_of in Hin as [-> | Hin]; [done |].
  rewrite forallb_forall in Hobj. by apply Hobj, list_elem_of_In.
Qed.

Lemma NoDup_setKey {A} (key : string) (value : A) (obj : list (string * A)) :
  NoDup (map fst obj) -> NoDup (map fst (setKey key value obj)).
Proof.
  intros Hobj. rewrite setKey_keys. case_bool_decide as Hin; [done |].
  apply NoDup_app. split; [done |]. split.
  - intros k Hk ->%list_elem_of_singleton. done.
  - apply NoDup_singleton.
Qed.

Lemma forallb_app_true {A} (P : A -> bool) (l1 l2 : list A) :
  forallb P l1 = true -> forallb P l2 = true -> forallb P (l1 ++ l2) = true.
Proof. intros H1 H2. by rewrite forallb_app, H1, H2. Qed.

(** What the [reduce] keeps of a property of trees that holds for every
    derived subtree and asks of an object only something about its keys. *)
Lemma mapField_fold_invariant
      (fetch : ResolveTree -> option GraphQLMappedFields)
      (good : GraphQLMappedFields -> bool) (goodKey : string -> bool)
      (resourceTreeMap : list (string * ResolveTree)) :
  (forall flat flat' nested,
      good (MappedFields flat nested) = good (MappedFields flat' nested)) ->
  (forall flat nested key value,
      good (MappedFields flat nested) = true -> goodKey key = true ->
      good value = true ->
      good (MappedFields flat (setKey key value nested)) = true) ->
  Forall (fun entry : string * ResolveTree =>
            goodKey entry.1 = true
            /\ forall r, fetch entry.2 = Some r -> good r = true)
         resourceTreeMap ->
  forall acc r,
    good acc = true ->
    fold_left (mapField fetch) resourceTreeMap (Some acc) = Some r ->
    good r = true.
Proof.
  intros Hflat Hset. induction 1 as [|[field tree] rest [Hkey Htree] _ IH].
  - simpl. by intros acc r Hacc [= <-].
  - intros acc r Hacc. cbn [fold_left mapField]. cbn [fst snd] in *.
    destruct acc as [flat nested]. cbn [flatFields nestedFields].
    destruct (isFlatField tree).
    + apply IH. by rewrite (Hflat _ flat).
    + destruct (fetch tree) as [sub|] eqn:Hfetch.
      * apply IH. apply Hset; [done | done | by apply Htree].
      * intros Hfold. exfalso. clear -Hfold.
        induction rest as [|[f t] rest IHrest]; [done |]. by apply IHrest.
Qed.

Lemma distinctKeys_setKey flat nested key value :
  distinctKeys (MappedFields flat nested) = true ->
  distinctKeys value = true ->
  distinctKeys (MappedFields flat (setKey key value nested)) = true.
Proof.
  cbn [distinctKeys]. intros [Hkeys Hsubs]%andb_prop Hvalue.
  apply andb_true_intro. split.
  - apply bool_decide_eq_true. apply NoDup_setKey.
    by apply bool_decide_eq_true in Hkeys.
  - by apply forallb_setKey.
Qed.

Lemma dotFreeKeys_setKey flat nested key value :
  dotFreeKeys (MappedFields flat nested) = true ->
  lacks "." key = true ->
  dotFreeKeys value = true ->
  dotFreeKeys (MappedFields flat (setKey key value nested)) = true.
Proof.
  cbn [dotFreeKeys]. intros Hnested Hkey Hvalue.
  apply forallb_setKey; [| done]. by rewrite Hkey, Hvalue.
Qed.

(** X6: the derived tree is well formed for the projection helpers: the keys
    of each of its objects are pairwise distinct, and no key holds a dot
    when the field names of the request hold none. *)
Theorem fetchResolveInfoNestedFields_well_formed (tree : ResolveTree)
        (fields : GraphQLMappedFields) :
  fetchResolveInfoNestedFields tree = Some fields ->
  distinctKeys fields = true
  /\ (dotFreeNames tree = true -> dotFreeKeys fields = true).
Proof.
  revert fields. induction tree as [types IH] using ResolveTree_ind.
  intros fields Hfetch.
  destruct types as [|[ty resourceTreeMap] rest]; [done |].
  cbn [fetchResolveInfoNestedFields] in Hfetch.
  apply Forall_cons in IH as [Hfields _]. cbn [snd] in Hfields. split.
  - apply (mapField_fold_invariant fetchResolveInfoNestedFields distinctKeys
             (fun _ => true) resourceTreeMap) with (acc := MappedFields [] []);
      [done | | | done | done].
    + intros flat nested key value Hobj _ Hvalue.
      by apply distinctKeys_setKey.
    + eapply Forall_impl; [exact Hfields |].
      intros [field sub] Hsub. cbn [fst snd] in *. split; [done |].
      intros r Hr. by destruct (Hsub r Hr).
  - intros Hnames. cbn [dotFreeNames forallb snd] in Hnames.
    apply andb_prop in Hnames as [Hnames _].
    apply (mapField_fold_invariant fetchResolveInfoNestedFields dotFreeKeys
             (lacks ".") resourceTreeMap) with (acc := MappedFields [] []);
      [done | | | done | done].
    + intros flat nested key value Hobj Hkey Hvalue.
      by apply dotFreeKeys_setKey.
    + rewrite forallb_forall in Hnames. rewrite Forall_forall in Hfields.
      apply Forall_forall. intros [field sub] Hin. cbn [fst snd].
      specialize (Hnames (field, sub) (proj1 (list_elem_of_In _ _) Hin)).
      cbn [fst snd] in Hnames. apply andb_prop in Hnames as [Hkey Hsubnames].
      split; [done |]. intros r Hr.
      destruct (Hfields (field, sub) Hin r Hr) as [_ Hdot]. by apply Hdot.
Qed.

Lemma fetchResolveInfoNestedFields_well_formed_witness :
  distinctKeys sampleFields = true /\ dotFreeKeys sampleFields = true.
Proof.
  destruct (fetchResolveInfoNestedFields_well_formed sampleResolveTree
              sampleFields eq_refl) as [Hdistinct Hdots].
  split; [exact Hdistinct | apply Hdots; reflexivity].
Defined.

(** ** Flattened fields and populate paths *)



Lemma split_nonempty (sep : ascii) (s : string) : split sep s <> [].
Proof.
  induction s as [|ch s IH]; simpl; [done |].
  destruct (Ascii.eqb ch sep); [done |]. by destruct (split sep s).
Qed.

Lemma split_length_separator (sep : ascii) (s : string) :
  lacks sep s = false -> (1 < length (split sep s))%nat.
Proof.
  induction s as [|ch s IH]; simpl; [done |].
  destruct (Ascii.eqb ch sep) eqn:Hch; simpl.
  - intros _. pose proof (split_nonempty sep s).
    destruct (split sep s); [done | simpl; lia].
  - intros Hs. specialize (IH Hs).
    destruct (split sep s) as [|part parts]; simpl in *; lia.
Qed.

(** X8: under a prefix that holds a dot the root-identity alias plays no
    part: the flattened fields are the same for every alias. *)
Theorem getFlattenFields_alias_ignored (fields : GraphQLMappedFields)
        (prefix alias alias' : string) :
  lacks "." prefix = false ->
  getFlattenFields fields prefix alias = getFlattenFields fields prefix alias'.
Proof.
  intros Hdot. destruct fields as [flat nested]. cbn [getFlattenFields].
  f_equal. apply map_ext. intros field. unfold flattenField. cbv zeta.
  apply split_length_separator in Hdot.
  by replace (1 <? length (split "." prefix))%nat with true
    by (symmetry; by apply Nat.ltb_lt).
Qed.

Lemma getFlattenFields_alias_ignored_witness :
  getFlattenFields sampleFields "user." "noteId"
  = getFlattenFields sampleFields "user." EmptyString.
Proof. apply getFlattenFields_alias_ignored. reflexivity. Defined.

(** X9: the populate list has one path per nested object of the request, at
    every depth, and does not depend on the scalar fields requested. *)
Theorem getAllNestedKeys_counts_objects (fields : GraphQLMappedFields) :
  forall prefix,
    length (getAllNestedKeys fields prefix) = countNested fields
    /\ getAllNestedKeys (withoutLeaves fields) prefix
       = getAllNestedKeys fields prefix.
Proof.
  induction fields as [flat nested IH] using GraphQLMappedFields_ind.
  intros prefix. cbn [getAllNestedKeys countNested withoutLeaves]. split.
  - rewrite length_app, !length_map, length_flat_map.
    induction IH as [|[key sub] rest Hsub _ IHrest]; [done |].
    cbn [snd] in Hsub. simpl.
    destruct (Hsub (prefix +:+ key +:+ ".")) as [-> _]. simpl in IHrest. lia.
  - f_equal.
    + induction IH as [|[key sub] rest Hsub _ IHrest]; [done |].
      cbn [snd] in Hsub. cbn [map flat_map fst snd]. f_equal; [| done].
      by destruct (Hsub (prefix +:+ key +:+ ".")) as [_ ->].
    + f_equal. rewrite map_map. by apply map_ext.
Qed.

Lemma append_prefix (p rest : string) : String.prefix p (p +:+ rest) = true.
Proof.
  induction p as [|ch p IH]; [by destruct rest |].
  rewrite append_cons. simpl. by destruct (ascii_dec ch ch).
Qed.

Lemma getAllNestedKeys_below (fields : GraphQLMappedFields) :
  forall prefix path,
    path ∈ getAllNestedKeys fields prefix ->
    exists key rest, path = prefix +:+ key +:+ rest
                     /\ exists sub, (key, sub) ∈ nestedFields fields.
Proof.
  induction fields as [flat nested IH] using GraphQLMappedFields_ind.
  intros prefix path. cbn [getAllNestedKeys nestedFields].
  intros [Hdeep | Hown]%elem_of_app.
  - apply list_elem_of_In, in_flat_map in Hdeep as ([key sub] & Hentry & Hin).
    apply list_elem_of_In in Hentry, Hin.
    rewrite Forall_forall in IH.
    destruct (IH (key, sub) Hentry _ _ Hin) as (k & rest & -> & _).
    exists key, ("." +:+ k +:+ rest). split; [| by exists sub].
    by rewrite !append_assoc.
  - apply list_elem_of_In, in_map_iff in Hown as (key & <- & Hkey).
    apply in_map_iff in Hkey as ([k sub] & <- & Hentry).
    exists k, EmptyString. split; [by rewrite append_empty_r |].
    exists sub. by apply list_elem_of_In.
Qed.

(** X10: every populate path starts with the prefix the call was given. *)
Theorem getAllNestedKeys_prefixed (fields : GraphQLMappedFields)
        (prefix path : string) :
  path ∈ getAllNestedKeys fields prefix -> startsWith path prefix = true.
Proof.
  intros (key & rest & -> & _)%getAllNestedKeys_below.
  apply append_prefix.
Qed.

Lemma getAllNestedKeys_prefixed_witness :
  startsWith "user.tags.tag" "user." = true.
Proof.
  apply (getAllNestedKeys_prefixed sampleFields "user." "user.tags.tag").
  vm_compute. apply elem_of_cons. by left.
Defined.

(** X11: the column list of [searchNotes] is the flattened field list of
    the generic helper for the same leaves, at the root, with noteId as the
    root-identity alias. *)
Theorem extractNoteFields_flatten (_mappedFields : GraphQLMappedFields) :
  extractNoteFields _mappedFields
  = getFlattenFields (MappedFields (flatFields _mappedFields) [])
                     EmptyString "noteId".
Proof.
  unfold extractNoteFields. cbn [getFlattenFields flat_map].
  rewrite app_nil_r. apply map_ext. intros field.
  unfold flattenField. cbn [split length Nat.ltb Nat.leb].
  by rewrite append_nil_l.
Qed.

Lemma lacks_append (c : ascii) (a b : string) :
  lacks c (a +:+ b) = lacks c a && lacks c b.
Proof.
  induction a as [|ch a IH]; [done |].
  rewrite append_cons. simpl. rewrite IH. by rewrite andb_assoc.
Qed.

Lemma getAllNestedKeys_under (sub : GraphQLMappedFields)
      (prefix key path : string) :
  path ∈ getAllNestedKeys sub (prefix +:+ key +:+ ".") ->
  exists rest, path = prefix +:+ key +:+ "." +:+ rest.
Proof.
  intros (k & rest & -> & _)%getAllNestedKeys_below.
  exists (k +:+ rest). by rewrite !append_assoc.
Qed.

Lemma dotted_key_inj (k1 k2 r1 r2 : string) :
  lacks "." k1 = true -> lacks "." k2 = true ->
  k1 +:+ "." +:+ r1 = k2 +:+ "." +:+ r2 -> k1 = k2.
Proof.
  intros H1 H2 Heq.
  assert (Hsplit : split "." (k1 +:+ "." +:+ r1)
                   = split "." (k2 +:+ "." +:+ r2)) by (by rewrite Heq).
  rewrite !split_dot_free in Hsplit by done. by injection Hsplit.
Qed.

(** X12: on a tree whose objects have pairwise distinct keys that hold no
    dot, the populate list names no relation path twice. *)
Theorem getAllNestedKeys_NoDup (fields : GraphQLMappedFields) :
  forall prefix,
    distinctKeys fields = true -> dotFreeKeys fields = true ->
    NoDup (getAllNestedKeys fields prefix).
Proof.
  induction fields as [flat nested IH] using GraphQLMappedFields_ind.
  intros prefix Hdistinct Hdots.
  cbn [getAllNestedKeys distinctKeys dotFreeKeys] in *.
  apply andb_prop in Hdistinct as [Hkeys Hsubs].
  apply bool_decide_eq_true in Hkeys.
  rewrite forallb_forall in Hsubs, Hdots.
  assert (Hentry : forall key sub,
             (key, sub) ∈ nested ->
             lacks "." key = true /\ distinctKeys sub = true
             /\ dotFreeKeys sub = true).
  { intros key sub Hin%list_elem_of_In.
    specialize (Hsubs _ Hin). specialize (Hdots _ Hin). cbn [snd] in *.
    apply andb_prop in Hdots as [? ?]. done. }
  clear Hsubs Hdots. apply NoDup_app. split; [| split].
  - induction IH as [|[key sub] rest Hsub _ IHrest]; [constructor |].
    cbn [flat_map]. cbn [map fst] in Hkeys.
    apply NoDup_cons in Hkeys as [Hfresh Hkeys].
    destruct (Hentry key sub) as (Hkey & Hd & Hf); [by left |].
    apply NoDup_app. split; [by apply Hsub |]. split.
    + intros path Hhere Hthere.
      apply getAllNestedKeys_under in Hhere as (r1 & ->).
      apply list_elem_of_In, in_flat_map in Hthere
        as ([key2 sub2] & Hin2 & Hpath2).
      apply list_elem_of_In in Hin2, Hpath2.
      apply getAllNestedKeys_under in Hpath2 as (r2 & Heq).
      apply String.app_inj in Heq.
      destruct (Hentry key2 sub2) as (Hkey2 & _); [by right |].
      apply dotted_key_inj in Heq; [| done | done]. subst key2.
      apply Hfresh. apply list_elem_of_In, in_map_iff.
      exists (key, sub2). split; [done | by apply list_elem_of_In].
    + apply IHrest; [done |]. intros k s Hin. apply Hentry. by right.
  - intros path Hdeep Hown.
    apply list_elem_of_In, in_flat_map in Hdeep as ([key sub] & Hin & Hpath).
    apply list_elem_of_In in Hin, Hpath.
    apply getAllNestedKeys_under in Hpath as (rest & ->).
    apply list_elem_of_In, in_map_iff in Hown as (key' & Heq & Hkey').
    apply in_map_iff in Hkey' as ([k' sub'] & <- & Hin').
    apply String.app_inj in Heq. cbn [fst] in Heq.
    destruct (Hentry k' sub') as (Hlacks & _); [by apply list_elem_of_In |].
    rewrite Heq, !lacks_append in Hlacks.
    apply andb_prop in Hlacks as [_ [Hdot _]%andb_prop]. discriminate.
  - apply (NoDup_fmap_2 (String.append prefix)). exact Hkeys.
Qed.

Lemma getAllNestedKeys_NoDup_witness :
  NoDup (getAllNestedKeys sampleFields "items.").
Proof. apply getAllNestedKeys_NoDup; reflexivity. Defined.

(** ** The search call as a whole *)

(** X13: whenever [searchNotes] returns, on either branch and for every
    storage session, the flag of the envelope is the pagination policy
    applied to the total of the same envelope. *)
Theorem searchNotes_flag_follows_total (ctx : EntityManager)
        (_mappedFields : GraphQLMappedFields) (input : SearchNotesInput)
        (paginationInput : PaginationInput)
        (sortInput : option NoteMultiSortInput) (result : NotesPaginated) :
  returned (searchNotes ctx _mappedFields input paginationInput sortInput)
  = Some result ->
  hasNextPage result
  = calcHasMorePages (totalCount result) (limit paginationInput)
                     (offset paginationInput).
Proof.
  destruct (searchPhrase input) as [phrase|] eqn:Hphrase.
  - destruct (execute ctx (knexCountQuery phrase (composeFilters input)
                             (composeSorters sortInput _mappedFields)))
      as [|total rest] eqn:Hcount.
    + unfold searchNotes, fetchNoteIdsBySearchPhrase, awaitExecute, bind.
      rewrite Hphrase. cbn [throw]. rewrite Hcount. discriminate.
    + rewrite (searchNotes_phrase_run _ _ _ _ _ _ _ _ Hphrase Hcount).
      by intros [= <-].
  - unfold searchNotes. rewrite Hphrase. by intros [= <-].
Qed.

Lemma searchNotes_flag_follows_total_witness :
  exists result,
    returned (searchNotes (session sampleDb) requestWithTags tideSearch
                          {| limit := 2; offset := 0 |} None)
    = Some result
    /\ hasNextPage result = calcHasMorePages (totalCount result) 2 0.
Proof.
  eexists. split; [vm_compute; reflexivity |].
  apply (searchNotes_flag_follows_total (session sampleDb) requestWithTags
           tideSearch {| limit := 2; offset := 0 |} None).
  vm_compute. reflexivity.
Defined.


(** ** The search over the storage model *)








(** X16: over the storage model, a page of [searchNotes] never holds more
    items than a nonnegative limit allows, with or without a phrase. *)
Theorem searchNotes_page_size (db : Sqlite)
        (_mappedFields : GraphQLMappedFields) (input : SearchNotesInput)
        (paginationInput : PaginationInput)
        (sortInput : option NoteMultiSortInput) (result : NotesPaginated) :
  0 <= limit paginationInput ->
  returned (searchNotes (session db) _mappedFields input paginationInput
                        sortInput)
  = Some result ->
  (length (items result) <= Z.to_nat (limit paginationInput))%nat.
Proof.
  intros Hlimit.
  destruct (searchPhrase input) as [phrase|] eqn:Hphrase.
  - rewrite (searchNotes_phrase_run (session db) _ _ _ _ _ _ []
               Hphrase (sqliteExecute_count db _ _ _)).
    intros [= <-]. cbn [items execute session]. unfold sortByIds.
    rewrite length_map, sqliteExecute_select. by apply page_limit.
  - unfold searchNotes. rewrite Hphrase. intros [= <-]. cbn [items].
    rewrite length_map.
    match goal with
    | |- (length (if _ then drop _ ?rows else _) <= _)%nat =>
        change (length (page (Some (offset paginationInput))
                             (Some (limit paginationInput)) rows)
                <= Z.to_nat (limit paginationInput))%nat
    end.
    by apply page_limit.
Qed.

Lemma searchNotes_page_size_witness :
  exists result,
    returned (searchNotes (session sampleDb) requestFlat tideSearch
                          {| limit := 2; offset := 0 |} None)
    = Some result
    /\ (length (items result) <= 2)%nat.
Proof.
  eexists. split; [vm_compute; reflexivity |].
  apply (searchNotes_page_size sampleDb requestFlat tideSearch
           {| limit := 2; offset := 0 |} None); [simpl; lia |].
  vm_compute. reflexivity.
Defined.

(** ** Writes *)

Lemma find_note_Some (id : Z) (notes : list Note) (n : Note) :
  List.find (fun n => note_id n =? id) notes = Some n ->
  n ∈ notes /\ note_id n = id.
Proof.
  intros [Hin Hid]%find_some. split; [by apply list_elem_of_In |].
  by apply Z.eqb_eq.
Qed.

Lemma find_note_None (id : Z) (notes : list Note) :
  List.find (fun n => note_id n =? id) notes = None <->
  forall n, n ∈ notes -> note_id n <> id.
Proof.
  split.
  - intros Hnone n Hin%list_elem_of_In.
    apply (find_none _ _ Hnone), Z.eqb_neq in Hin. done.
  - intros Hall. destruct (List.find _ notes) as [n|] eqn:Hfind; [| done].
    apply find_note_Some in Hfind as [Hin Hid]. by destruct (Hall n Hin).
Qed.

(** X17: [deleteNote] throws exactly when no note has the id, leaving the
    store as it is; otherwise it returns true.  Either way no note with the
    id is in the store afterwards, and every other note is, in the same
    order, with the tag table untouched. *)
Theorem deleteNote_removes (id : Z) (db : Database) :
  let (outcome, after) := deleteNote id db in
  (outcome = Thrown "Note not found"
   <-> forall n, n ∈ db_notes db -> note_id n <> id)
  /\ (outcome = Thrown "Note not found" \/ outcome = Returned true)
  /\ (outcome = Thrown "Note not found" -> after = db)
  /\ db_notes after
     = List.filter (fun n => negb (note_id n =? id)) (db_notes db)
  /\ db_tags after = db_tags db.
Proof.
  unfold deleteNote, findOneNote.
  destruct (List.find _ (db_notes db)) as [note|] eqn:Hfind.
  - apply find_note_Some in Hfind as [Hin Hid].
    split; [| split; [by right | split; [done |]]].
    + split; [done |]. intros Hnone. by destruct (Hnone note Hin).
    + cbn [removeNote db_notes db_tags]. by rewrite Hid.
  - split; [| split; [by left | split; [done | split; [| done]]]].
    + split; [| done]. intros _. by apply find_note_None.
    + symmetry. apply forallb_filter_id. apply forallb_forall. intros n Hn.
      apply negb_true_iff, Z.eqb_neq.
      by apply (proj1 (find_note_None id _) Hfind), list_elem_of_In.
Qed.

Lemma satisfies_interval (lower upper : Z) (n : Note) :
  satisfies {[ "date" := Operators [op_gte lower; op_lte upper] ]} n
  = (lower <=? note_date n) && (note_date n <=? upper).
Proof.
  unfold satisfies, satisfiesColumns, whereProperty.
  rewrite lookup_singleton_eq, !lookup_singleton_ne by done.
  cbn [holdsScalar forallb holdsOperator]. by rewrite !andb_true_r.
Qed.

(** X18: [deleteNotesInInterval] returns true and deletes exactly the notes
    dated within the interval, both bounds included, where a missing lower
    bound stands for the epoch: notes dated before the epoch stay when no
    lower bound is given.  The notes that stay keep their order. *)
Theorem deleteNotesInInterval_range (interval : NoteDeleteIntervalInput)
        (db : Database) :
  let lower := default 0 (interval_fromDate interval) in
  let upper := interval_toDate interval in
  let (outcome, after) := deleteNotesInInterval interval db in
  outcome = Returned true
  /\ db_notes after
     = List.filter (fun n => negb ((lower <=? note_date n)
                                   && (note_date n <=? upper)))
                   (db_notes db)
  /\ (forall n, n ∈ db_notes after
                <-> n ∈ db_notes db
                    /\ ~ (lower <= note_date n <= upper))
  /\ db_tags after = db_tags db.
Proof.
  cbv zeta. unfold deleteNotesInInterval, nativeDeleteNotes, intervalQuery.
  cbn [db_notes db_tags]. split; [done |].
  assert (Hfilter :
    List.filter
      (fun n => negb (satisfies
                        match interval_fromDate interval with
                        | Some fromDate =>
                            {[ "date" := Operators
                                 [op_gte fromDate;
                                  op_lte (interval_toDate interval)] ]}
                        | None =>
                            {[ "date" := Operators
                                 [op_gte 0;
                                  op_lte (interval_toDate interval)] ]}
                        end n))
      (db_notes db)
    = List.filter
        (fun n => negb ((default 0 (interval_fromDate interval)
                         <=? note_date n)
                        && (note_date n <=? interval_toDate interval)))
        (db_notes db)).
  { apply filter_ext. intros n.
    destruct (interval_fromDate interval); cbn [default];
      by rewrite satisfies_interval. }
  rewrite Hfilter. split; [done |]. split; [| done].
  intros n. rewrite list_elem_of_In, filter_In, <- list_elem_of_In.
  rewrite negb_true_iff, andb_false_iff, !Z.leb_gt.
  split; intros [Hin Hdate]; (split; [done | lia]).
Qed.

Lemma findTags_ids (tagIds : list Z) (db : Database) (id : Z) :
  id ∈ tagIds ->
  (id ∈ map tag_id (findTags tagIds db) <-> id ∈ map tag_id (db_tags db)).
Proof.
  intros Hasked. unfold findTags.
  rewrite !list_elem_of_In, !in_map_iff. split.
  - intros (t & Hid & [Hin _]%filter_In). by exists t.
  - intros (t & Hid & Hin). exists t. split; [done |].
    apply filter_In. split; [done |].
    apply existsb_eqb_elem_of. by rewrite Hid.
Qed.

(** The missing ids are the requested ids that the tag table lacks, in the
    order of the request. *)
Lemma missingTagIds_table (tagIds : list Z) (db : Database) :
  missingTagIds tagIds db
  = List.filter (fun id => negb (bool_decide (id ∈ map tag_id (db_tags db))))
                tagIds.
Proof.
  unfold missingTagIds. cbv zeta. apply filter_ext_in. intros id Hid.
  f_equal. apply bool_decide_ext, findTags_ids. by apply list_elem_of_In.
Qed.



Lemma missingTagIds_none (tagIds : list Z) (db : Database) :
  (forall id, id ∈ tagIds -> id ∈ map tag_id (db_tags db)) ->
  missingTagIds tagIds db = [].
Proof.
  intros Hall. rewrite missingTagIds_table.
  induction tagIds as [|id tagIds IH]; [done |]. cbn [List.filter].
  rewrite bool_decide_eq_true_2 by (apply Hall; by left). cbn [negb].
  apply IH. intros id' Hin. apply Hall. by right.
Qed.

Lemma findOneNote_cleared (noteId : Z) (db : Database) (note : Note) :
  findOneNote noteId db = Some note ->
  findOneNote noteId (nativeDeleteNoteTags noteId db)
  = Some (withTags note []).
Proof.
  unfold findOneNote, nativeDeleteNoteTags. cbn [db_notes].
  induction (db_notes db) as [|n notes IH]; [done |]. cbn [List.find map].
  destruct (note_id n =? noteId) eqn:Hid.
  - intros [= ->]. cbn [withTags note_id]. by rewrite Hid.
  - rewrite Hid. exact IH.
Qed.

Lemma tagById_found (id : Z) (db : Database) :
  id ∈ map tag_id (db_tags db) ->
  exists t, tagById id db = Some t /\ tag_id t = id.
Proof.
  intros (t & Hid & Hin)%list_elem_of_In%in_map_iff. unfold tagById.
  destruct (List.find _ (db_tags db)) as [t'|] eqn:Hfind.
  - exists t'. split; [done |].
    by apply find_some in Hfind as [_ ?%Z.eqb_eq].
  - apply (find_none _ _ Hfind) in Hin. apply Z.eqb_neq in Hin. done.
Qed.

Lemma mapM_tagById (tagIds : list Z) (db : Database) :
  (forall id, id ∈ tagIds -> id ∈ map tag_id (db_tags db)) ->
  exists tags,
    mapM (fun id => tagById id db) tagIds = Some tags
    /\ map tag_id tags = tagIds.
Proof.
  induction tagIds as [|id tagIds IH]; intros Hall.
  - by exists [].
  - destruct (tagById_found id db) as (t & Ht & Hid); [apply Hall; by left |].
    destruct IH as (tags & Htags & Hids); [intros ? ?; apply Hall; by right |].
    exists (t :: tags). split; [| by rewrite <- Hid, <- Hids].
    cbn [mapM]. rewrite Ht. cbn. by rewrite Htags.
Qed.

Lemma noteTagsFrom_ids (tags : list Tag) :
  forall next,
    map (fun nt => tag_id (noteTag_tag nt)) (noteTagsFrom next tags)
    = map tag_id tags.
Proof.
  induction tags as [|t tags IH]; intros next; [done |].
  cbn [noteTagsFrom map noteTag_tag]. by rewrite IH.
Qed.

(** X20: when the note exists, every requested tag exists and no tag is
    requested twice, [associateTagsWithNote] returns true and the note's
    tags are afterwards exactly the requested ones, in request order,
    whatever they were before; every other note, the note's own columns and
    the tag table are untouched. *)
Theorem associateTagsWithNote_replaces (associations : NoteAssociationInput)
        (db : Database) :
  let noteId := assoc_noteId associations in
  let tagIds := map assoc_tagId (assoc_tags associations) in
  (exists n, n ∈ db_notes db /\ note_id n = noteId) ->
  (forall id, id ∈ tagIds -> id ∈ map tag_id (db_tags db)) ->
  NoDup tagIds ->
  tagIds <> [] ->
  exists after,
    associateTagsWithNote associations db = (Returned true, after)
    /\ db_tags after = db_tags db
    /\ Forall2 (fun before n =>
                  if note_id before =? noteId
                  then tagIdsOf n = tagIds
                       /\ withTags n [] = withTags before []
                  else n = before)
               (db_notes db) (db_notes after).
Proof.
  intros noteId tagIds (n0 & Hin & Hid) Hall Hdistinct _.
  unfold associateTagsWithNote. cbv zeta. fold noteId tagIds.
  destruct (findOneNote noteId db) as [note|] eqn:Hfind.
  2:{ by destruct (proj1 (find_note_None _ _) Hfind n0 Hin). }
  rewrite (missingTagIds_none _ _ Hall). cbn [length Nat.ltb Nat.leb].
  unfold insertManyNoteTags.
  rewrite (findOneNote_cleared _ _ _ Hfind).
  destruct (mapM_tagById tagIds (nativeDeleteNoteTags noteId db))
    as (tags & -> & Hids); [done |].
  unfold tagIdsOf at 1. cbn [withTags note_tags map app].
  rewrite bool_decide_eq_true_2 by done.
  eexists. split; [reflexivity |]. cbn [db_tags db_notes nativeDeleteNoteTags].
  split; [done |].
  rewrite map_map. clear Hin Hfind.
  induction (db_notes db) as [|n notes IH]; [constructor |].
  cbn [map]. constructor; [| exact IH].
  destruct (note_id n =? noteId) eqn:Hn.
  - cbn [withTags note_id]. rewrite Hn. split; [| done].
    unfold tagIdsOf. cbn [withTags note_tags app].
    by rewrite noteTagsFrom_ids.
  - by rewrite Hn.
Qed.

Lemma associateTagsWithNote_replaces_witness :
  exists after,
    associateTagsWithNote
      {| assoc_noteId := 3;
         assoc_tags := [{| assoc_tagId := 2; assoc_displayOrder := 1 |}] |}
      sampleDatabase
    = (Returned true, after)
    /\ map tagIdsOf (db_notes after) = [[2]; [1]; [2]; []].
Proof.
  destruct (associateTagsWithNote_replaces
              {| assoc_noteId := 3;
                 assoc_tags := [{| assoc_tagId := 2;
                                   assoc_displayOrder := 1 |}] |}
              sampleDatabase) as (after & Hrun & _).
  - exists noteCharts. split; [| reflexivity].
    do 2 (apply elem_of_cons; right). apply elem_of_cons. by left.
  - intros id ->%list_elem_of_singleton. vm_compute.
    apply elem_of_cons. right. apply elem_of_cons. by left.
  - apply NoDup_singleton.
  - discriminate.
  - exists after. split; [exact Hrun |].
    vm_compute in Hrun. injection Hrun as <-. reflexivity.
Defined.

(** X21: when the note and every requested tag exist but a tag is requested
    twice, the insert breaks the unique index of note_tag on
    (note_id, tag_id): the call returns false and, the transaction being
    rolled back, the note keeps the tags it had. *)
Theorem associateTagsWithNote_duplicate (associations : NoteAssociationInput)
        (db : Database) :
  let noteId := assoc_noteId associations in
  let tagIds := map assoc_tagId (assoc_tags associations) in
  (exists n, n ∈ db_notes db /\ note_id n = noteId) ->
  (forall id, id ∈ tagIds -> id ∈ map tag_id (db_tags db)) ->
  ~ NoDup tagIds ->
  associateTagsWithNote associations db = (Returned false, db).
Proof.
  intros noteId tagIds (n0 & Hin & Hid) Hall Hdup.
  unfold associateTagsWithNote. cbv zeta. fold noteId tagIds.
  destruct (findOneNote noteId db) as [note|] eqn:Hfind.
  2:{ by destruct (proj1 (find_note_None _ _) Hfind n0 Hin). }
  rewrite (missingTagIds_none _ _ Hall). cbn [length Nat.ltb Nat.leb].
  unfold insertManyNoteTags.
  rewrite (findOneNote_cleared _ _ _ Hfind).
  destruct (mapM_tagById tagIds (nativeDeleteNoteTags noteId db))
    as (tags & -> & Hids); [done |].
  unfold tagIdsOf. cbn [withTags note_tags map app].
  by rewrite bool_decide_eq_false_2.
Qed.

Lemma associateTagsWithNote_duplicate_witness :
  associateTagsWithNote
    {| assoc_noteId := 3;
       assoc_tags := [{| assoc_tagId := 2; assoc_displayOrder := 1 |};
                      {| assoc_tagId := 2; assoc_displayOrder := 2 |}] |}
    sampleDatabase
  = (Returned false, sampleDatabase).
Proof.
  apply associateTagsWithNote_duplicate.
  - exists noteCharts. split; [| reflexivity].
    do 2 (apply elem_of_cons; right). apply elem_of_cons. by left.
  - intros id Hid. vm_compute in Hid.
    apply elem_of_cons in Hid as [-> | Hid].
    + vm_compute. apply elem_of_cons. right. apply elem_of_cons. by left.
    + apply elem_of_cons in Hid as [-> | Hid]; [| by apply elem_of_nil in Hid].
      vm_compute. apply elem_of_cons. right. apply elem_of_cons. by left.
  - intros Hnodup. vm_compute in Hnodup.
    apply NoDup_cons in Hnodup as [Hfresh _]. apply Hfresh.
    apply elem_of_cons. by left.
Defined.

(** ** Sort specification *)

Lemma compareTerm_listed (f : NoteSortField.t) (s : Sort.t) (r1 r2 : Row) :
  compareTerm
    match f with
    | NoteSortField.date =>
        {| order_path := ["date"]; order_dir := QueryOrder.ofSort s |}
    | NoteSortField.languageId =>
        {| order_path := ["language"; "id"];
           order_dir := QueryOrder.ofSort s |}
    | NoteSortField.sourceId =>
        {| order_path := ["source"; "id"];
           order_dir := QueryOrder.ofSort s |}
    end r1 r2
  = match s with
    | Sort.asc => sortKey f r1.1 ?= sortKey f r2.1
    | Sort.desc => CompOpp (sortKey f r1.1 ?= sortKey f r2.1)
    end.
Proof. destruct f, s; reflexivity. Qed.

(** X22: with a sort specification the ordering clause has one term per
    listed pair, in listed order and whatever the projection is, and orders
    rows by the named columns of their notes, pair by pair in the listed
    direction; the tag display-order term of the default ordering is never
    added, so rows of one note are not ordered among themselves and an empty
    list orders nothing. *)
Theorem composeSorters_listed (sortInput : NoteMultiSortInput)
        (_mappedFields : GraphQLMappedFields) :
  let sorters := composeSorters (Some sortInput) _mappedFields in
  length sorters = length (sorts sortInput)
  /\ (tagDisplayOrderAscending ∉ sorters)
  /\ (forall r1 r2 : Row,
         compareRows sorters r1 r2
         = compareBySorts (sorts sortInput) r1.1 r2.1).
Proof.
  cbv zeta. unfold composeSorters. split; [by rewrite length_map |]. split.
  - intros (value & Heq & _)%list_elem_of_In%in_map_iff.
    destruct (field value); discriminate Heq.
  - intros r1 r2. induction (sorts sortInput) as [|value rest IH]; [done |].
    cbn [map compareRows compareBySorts]. rewrite IH.
    rewrite compareTerm_listed.
    by destruct (sort value),
         (sortKey (field value) r1.1 ?= sortKey (field value) r2.1).
Qed.

(** ** Reading the match clause back *)





(** ** Filters that admit nothing *)

(** X24: an identifier list that is given but empty admits no note, unlike
    an absent list, and so does a date range whose lower bound lies after
    its upper bound: no note satisfies the composed filter. *)
Theorem composeFilters_unsatisfiable (input : SearchNotesInput) (n : Note) :
  sourceIds input = Some [] \/ languageIds input = Some []
  \/ tagIds input = Some [] \/ toDate input < fromDate input ->
  satisfies (composeFilters input) n = false.
Proof.
  intros Hempty. unfold satisfies, satisfiesColumns, whereProperty.
  rewrite composeFilters_id, composeFilters_date, composeFilters_source,
    composeFilters_language, composeFilters_tags.
  destruct Hempty as [-> | [-> | [-> | Hdates]]]; cbn.
  - by rewrite !andb_false_r.
  - by rewrite !andb_false_r.
  - apply andb_false_iff. right. by induction (note_tags n).
  - replace ((fromDate input <=? note_date n)
             && ((note_date n <=? toDate input) && true)) with false; [done |].
    symmetry. rewrite andb_true_r. apply andb_false_iff.
    destruct (Z.leb_spec (fromDate input) (note_date n)); [right | by left].
    apply Z.leb_gt. lia.
Qed.

Lemma composeFilters_unsatisfiable_witness :
  satisfies
    (composeFilters {| fromDate := 0; toDate := 100; sourceIds := Some [];
                       languageIds := None; tagIds := None;
                       searchPhrase := None |})
    noteHarbour
  = false.
Proof. apply composeFilters_unsatisfiable. by left. Defined.
